(** * Portfolio site script: a shallow embedding of [public/script.js]

    The script is UI glue over the browser: a module-level [state] object,
    a handful of element handles fetched once at load time, and handlers
    that mutate class lists, inline styles, the theme entry of local
    storage and the children of the contact form.  The embedding keeps that
    shape: one [World] record holds what the handlers read and write, every
    handler is a function [World -> World], timers are entries of a queue
    with their delay, and the environment (scroll position, geometry of the
    elements, the content of the form fields) is part of the world. *)

From Stdlib Require Import ZArith NArith Floats Uint63 Bool Ascii String.
From stdpp Require Import base option list gmap sets strings.

Set Default Proof Using "Type".
Local Open Scope string_scope.
Local Open Scope list_scope.

(** ** JavaScript strings typed in by the user

    The values of the form fields are arbitrary JavaScript strings, that is
    sequences of UTF-16 code units, and both [String.prototype.trim] and the
    regular expression class [\s] look at code units beyond ASCII.  They are
    modelled as lists of code units.  Program literals (class tokens, labels,
    messages, theme names) are plain [string]s. *)

Module JsString.

Definition code_unit := N.
Definition t := list code_unit.

Definition of_ascii (a : ascii) : code_unit := N_of_ascii a.

Fixpoint of_string (s : string) : t :=
  match s with
  | EmptyString => []
  | String a s' => of_ascii a :: of_string s'
  end.

(** ECMAScript WhiteSpace and LineTerminator code points: what [trim]
    strips and what [\s] matches. *)
Definition is_space (c : code_unit) : bool :=
  ((9 <=? c) && (c <=? 13)          (* TAB LF VT FF CR *)
   || (c =? 32)                     (* SP *)
   || (c =? 160)                    (* NBSP *)
   || (c =? 5760)                   (* U+1680 *)
   || ((8192 <=? c) && (c <=? 8202))(* U+2000 .. U+200A *)
   || (c =? 8232) || (c =? 8233)    (* LS PS *)
   || (c =? 8239)                   (* U+202F *)
   || (c =? 8287)                   (* U+205F *)
   || (c =? 12288)                  (* U+3000 *)
   || (c =? 65279))%N.              (* U+FEFF *)

Fixpoint trimStart (s : t) : t :=
  match s with
  | [] => []
  | c :: s' => if is_space c then trimStart s' else s
  end.

Definition trimEnd (s : t) : t := rev (trimStart (rev s)).

Definition trim (s : t) : t := trimEnd (trimStart s).

(** ToBoolean on a string: only the empty string is falsy. *)
Definition truthy (s : t) : bool :=
  match s with [] => false | _ :: _ => true end.

Definition at_sign : code_unit := 64%N.
Definition full_stop : code_unit := 46%N.

End JsString.

(** ** Regular expressions of the shape the script uses

    [/^[^\s@]+@[^\s@]+\.[^\s@]+$/] is anchored at both ends and is a sequence
    of single-character items, some of them under [+].  [test] is the
    backtracking matcher: a [+] item first tries to take one more
    character and, when the rest fails, gives back. *)

Module Regex.
Import JsString.

Inductive char_class :=
| NotSpaceNorAt            (* [^\s@] *)
| Literal (c : code_unit). (* an escaped or plain character *)

Definition class_matches (k : char_class) (c : code_unit) : bool :=
  match k with
  | NotSpaceNorAt => negb (is_space c) && negb (c =? at_sign)%N
  | Literal d => (c =? d)%N
  end.

Inductive item :=
| One (k : char_class)
| OneOrMore (k : char_class).

(** An anchored pattern [^ i1 i2 ... in $]. *)
Definition pattern := list item.

Fixpoint test (p : pattern) : JsString.t -> bool :=
  match p with
  | [] => fun s => match s with [] => true | _ :: _ => false end
  | One k :: p' => fun s =>
      match s with
      | [] => false
      | c :: s' => class_matches k c && test p' s'
      end
  | OneOrMore k :: p' =>
      fix more (s : JsString.t) : bool :=
        match s with
        | [] => false
        | c :: s' => class_matches k c && (more s' || test p' s')
        end
  end.

(** The language of a pattern, independently of any matching strategy. *)
Inductive matches : pattern -> JsString.t -> Prop :=
| matches_nil : matches [] []
| matches_one k p c s :
    class_matches k c = true -> matches p s -> matches (One k :: p) (c :: s)
| matches_more k p u s :
    u <> [] -> Forall (fun c => class_matches k c = true) u ->
    matches p s -> matches (OneOrMore k :: p) (u ++ s).

End Regex.

(** ** The parts of the DOM the script touches *)

(** Element handles: the identity of a DOM element object. *)
Definition elem := nat.

(** [DOMTokenList]: the ordered set of class tokens behind [classList]. *)
Module ClassList.

Definition t := list string.

Definition contains (tok : string) (l : t) : bool := bool_decide (tok ∈ l).

Definition remove (tok : string) (l : t) : t :=
  filter (fun x => x <> tok) l.

Definition add (tok : string) (l : t) : t :=
  if contains tok l then l else l ++ [tok].

(** [toggle(token)]: removes the token when present, appends it otherwise. *)
Definition toggle (tok : string) (l : t) : t :=
  if contains tok l then remove tok l else l ++ [tok].

(** [toggle(token, force)]. *)
Definition toggle_force (tok : string) (force : bool) (l : t) : t :=
  if force then add tok l else remove tok l.

Definition is_ascii_space (a : ascii) : bool :=
  let n := N_of_ascii a in
  ((n =? 9) || (n =? 10) || (n =? 12) || (n =? 13) || (n =? 32))%N.

(** The tokens of a [class] attribute: split on ASCII whitespace. *)
Fixpoint split_go (s : string) (cur : string) : list string :=
  match s with
  | EmptyString => match cur with EmptyString => [] | _ => [cur] end
  | String a s' =>
      if is_ascii_space a
      then match cur with
           | EmptyString => split_go s' EmptyString
           | _ => cur :: split_go s' EmptyString
           end
      else split_go s' (cur +:+ String a EmptyString)
  end.

Definition of_className (s : string) : t := split_go s EmptyString.

End ClassList.

(** The value the script assigns to [style.width]: the template literal
    [`${scrollPercentage}%`] is kept as the number it prints. *)
Inductive css_width :=
| WidthUnset
| WidthPercent (x : float).

(** The inline style properties the handlers assign. *)
Record style := {
  opacity : string;
  transform : string;
  boxShadow : string;
  width : css_width
}.

Definition no_style : style :=
  {| opacity := ""; transform := ""; boxShadow := ""; width := WidthUnset |}.

(** A node of the document tree, as far as [showMessage] looks at it: its
    identity, its [className], its text and its children in order. *)
#[local] Unset Elimination Schemes.
Inductive node :=
| Node (node_id : elem) (className : string) (textContent : string)
       (childNodes : list node).
#[local] Set Elimination Schemes.

Definition node_id (n : node) : elem := let 'Node i _ _ _ := n in i.
Definition className (n : node) : string := let 'Node _ c _ _ := n in c.
Definition textContent (n : node) : string := let 'Node _ _ t _ := n in t.
Definition childNodes (n : node) : list node := let 'Node _ _ _ k := n in k.

Module Dom.

Definition has_class (tok : string) (cls : string) : bool :=
  ClassList.contains tok (ClassList.of_className cls).

(** [querySelector('.tok')] below a node: the first match in document
    (pre-)order. *)
Fixpoint query_node (tok : string) (n : node) : option elem :=
  let 'Node i c _ kids := n in
  if has_class tok c then Some i
  else (fix query_list (l : list node) : option elem :=
          match l with
          | [] => None
          | k :: l' =>
              match query_node tok k with
              | Some r => Some r
              | None => query_list l'
              end
          end) kids.

Fixpoint querySelector (tok : string) (d : list node) : option elem :=
  match d with
  | [] => None
  | k :: d' =>
      match query_node tok k with
      | Some r => Some r
      | None => querySelector tok d'
      end
  end.

(** [node.remove()]: the node leaves its parent's child list, with its
    subtree.  Nothing happens for a node that is not in the tree. *)
Fixpoint remove_node (i : elem) (n : node) : node :=
  let 'Node j c t kids := n in
  Node j c t
    ((fix remove_list (l : list node) : list node :=
        match l with
        | [] => []
        | k :: l' =>
            if Nat.eqb (node_id k) i then remove_list l'
            else remove_node i k :: remove_list l'
        end) kids).

Fixpoint remove (i : elem) (d : list node) : list node :=
  match d with
  | [] => []
  | k :: d' =>
      if Nat.eqb (node_id k) i then remove i d'
      else remove_node i k :: remove i d'
  end.

(** [parent.insertBefore(new, parent.firstChild)]: the new node becomes
    the first child of the parent. *)
Fixpoint prepend_node (parent : elem) (new : node) (n : node) : node :=
  let 'Node j c t kids := n in
  if Nat.eqb j parent then Node j c t (new :: kids)
  else Node j c t
    ((fix prepend_list (l : list node) : list node :=
        match l with
        | [] => []
        | k :: l' => prepend_node parent new k :: prepend_list l'
        end) kids).

Fixpoint prepend (parent : elem) (new : node) (d : list node) : list node :=
  match d with
  | [] => []
  | k :: d' => prepend_node parent new k :: prepend parent new d'
  end.

(** The children of the element with the given handle, when it is in the
    tree. *)
Fixpoint children_in (i : elem) (n : node) : option (list node) :=
  let 'Node j _ _ kids := n in
  if Nat.eqb j i then Some kids
  else (fix children_list (l : list node) : option (list node) :=
          match l with
          | [] => None
          | k :: l' =>
              match children_in i k with
              | Some r => Some r
              | None => children_list l'
              end
          end) kids.

Fixpoint children_of (i : elem) (d : list node) : option (list node) :=
  match d with
  | [] => None
  | k :: d' =>
      match children_in i k with
      | Some r => Some r
      | None => children_of i d'
      end
  end.

(** The handles of all nodes of a tree, in document order. *)
Fixpoint ids_node (n : node) : list elem :=
  let 'Node j _ _ kids := n in
  j :: (fix ids_list (l : list node) : list elem :=
          match l with
          | [] => []
          | k :: l' => ids_node k ++ ids_list l'
          end) kids.

Fixpoint ids (d : list node) : list elem :=
  match d with
  | [] => []
  | k :: d' => ids_node k ++ ids d'
  end.

End Dom.

(** ** Numbers

    JavaScript numbers are binary64 floats; the kernel's primitive floats
    are the same format with the same operations.  The geometry attributes
    [innerHeight], [innerWidth], [scrollHeight] and [offsetTop] are integers
    ([long] in the DOM interfaces). *)

(** The number holding an integer (exact below [2^53] in magnitude). *)
Definition float_of_Z (z : Z) : float :=
  match z with
  | Z0 => PrimFloat.zero
  | Zpos _ => PrimFloat.of_uint63 (Uint63.of_Z z)
  | Zneg p => PrimFloat.opp (PrimFloat.of_uint63 (Uint63.of_Z (Zpos p)))
  end.

(** The literal [0.8]: the binary64 value nearest to eight tenths. *)
Definition lit_0_8 : float := 0x1.999999999999ap-1%float.

(** ** The world *)

(** [const state = { isMenuOpen, isScrolled, animatedElements }]. *)
Record State := {
  isMenuOpen : bool;
  isScrolled : bool;
  animatedElements : gset elem
}.

(** The elements fetched once at load time ([mobileMenu], the [<i>] icon of
    [mobileMenuButton], [nav]) and [document.body], as far as the handlers
    read and write them. *)
Record MenuDom := {
  mobileMenu_classList : ClassList.t;
  icon_classList : ClassList.t;
  navbar_classList : ClassList.t;
  body_classList : ClassList.t;
  body_overflow : string
}.

(** [document.documentElement.className] and [localStorage]. *)
Record ThemeDom := {
  root_className : string;
  localStorage : gmap string string
}.

(** What the browser reports at the time of an event: scroll offset, sizes,
    and the elements matching ['.animate-fade-in'] in document order, each
    with the [top] of its bounding rectangle as the scan reads it. *)
Record Layout := {
  scrollY : float;
  innerHeight : Z;
  innerWidth : Z;
  scrollHeight : Z;
  fadeIn : list (elem * float)
}.

(** [Object.fromEntries(new FormData(form))] for the four fields. *)
Record FormData := {
  name : JsString.t;
  email : JsString.t;
  subject : JsString.t;
  message : JsString.t
}.

(** The tree below [document.body], the contact form in it, and the state
    of the form's controls. *)
Record FormDom := {
  body : list node;
  contactForm : elem;
  next_elem : elem;
  fields : FormData;
  field_defaults : FormData;
  button_innerHTML : string;
  button_disabled : bool
}.

(** The three handlers built with [utils.throttle]; each closure has its own
    [inThrottle] flag. *)
Inductive throttled := NavbarScroll | AnimateOnScroll | UpdateScrollProgress.

(** The functions passed to [setTimeout]. *)
Inductive callback :=
| ResetThrottle (h : throttled)   (* () => inThrottle = false *)
| RemoveMessage (n : elem)        (* () => messageDiv.remove() *)
| SubmitDone (data : FormData) (originalText : string)
    (* the timer of submitContactForm, and what handleContactForm does
       once the promise it awaits is resolved *)
| ResizeCheck.                    (* the debounced body of the resize listener *)

Record timer := {
  timer_id : nat;
  due : N;
  action : callback
}.

Record Sched := {
  clock : N;
  timers : list timer;
  next_timer : nat;
  navbar_inThrottle : bool;
  animate_inThrottle : bool;
  progress_inThrottle : bool;
  resize_timeoutId : option nat
}.

Record World := {
  state : State;
  menuDom : MenuDom;
  themeDom : ThemeDom;
  layout : Layout;
  styles : gmap elem style;
  formDom : FormDom;
  sched : Sched;
  scrollTo_top : option Z;
  console : list string
}.

Definition with_state (f : State -> State) (w : World) : World :=
  {| state := f (state w); menuDom := menuDom w; themeDom := themeDom w;
     layout := layout w; styles := styles w; formDom := formDom w;
     sched := sched w; scrollTo_top := scrollTo_top w; console := console w |}.

Definition with_menu (f : MenuDom -> MenuDom) (w : World) : World :=
  {| state := state w; menuDom := f (menuDom w); themeDom := themeDom w;
     layout := layout w; styles := styles w; formDom := formDom w;
     sched := sched w; scrollTo_top := scrollTo_top w; console := console w |}.

Definition with_theme (f : ThemeDom -> ThemeDom) (w : World) : World :=
  {| state := state w; menuDom := menuDom w; themeDom := f (themeDom w);
     layout := layout w; styles := styles w; formDom := formDom w;
     sched := sched w; scrollTo_top := scrollTo_top w; console := console w |}.

Definition with_layout (l : Layout) (w : World) : World :=
  {| state := state w; menuDom := menuDom w; themeDom := themeDom w;
     layout := l; styles := styles w; formDom := formDom w;
     sched := sched w; scrollTo_top := scrollTo_top w; console := console w |}.

Definition with_styles (f : gmap elem style -> gmap elem style) (w : World) : World :=
  {| state := state w; menuDom := menuDom w; themeDom := themeDom w;
     layout := layout w; styles := f (styles w); formDom := formDom w;
     sched := sched w; scrollTo_top := scrollTo_top w; console := console w |}.

Definition with_form (f : FormDom -> FormDom) (w : World) : World :=
  {| state := state w; menuDom := menuDom w; themeDom := themeDom w;
     layout := layout w; styles := styles w; formDom := f (formDom w);
     sched := sched w; scrollTo_top := scrollTo_top w; console := console w |}.

Definition with_sched (f : Sched -> Sched) (w : World) : World :=
  {| state := state w; menuDom := menuDom w; themeDom := themeDom w;
     layout := layout w; styles := styles w; formDom := formDom w;
     sched := f (sched w); scrollTo_top := scrollTo_top w; console := console w |}.

Definition with_scrollTo (t : option Z) (w : World) : World :=
  {| state := state w; menuDom := menuDom w; themeDom := themeDom w;
     layout := layout w; styles := styles w; formDom := formDom w;
     sched := sched w; scrollTo_top := t; console := console w |}.

Definition with_console (f : list string -> list string) (w : World) : World :=
  {| state := state w; menuDom := menuDom w; themeDom := themeDom w;
     layout := layout w; styles := styles w; formDom := formDom w;
     sched := sched w; scrollTo_top := scrollTo_top w; console := f (console w) |}.

(** [element.style] of an element; an element the script never styled has
    the empty inline style. *)
Definition style_of (w : World) (e : elem) : style :=
  default no_style (styles w !! e).

Definition update_style (e : elem) (f : style -> style) (w : World) : World :=
  with_styles (fun m => <[e := f (default no_style (m !! e))]> m) w.

(** ** Timers *)

(** [setTimeout(cb, delay)]: a new entry, due [delay] ms from now. *)
Definition setTimeout (cb : callback) (delay : N) (w : World) : World :=
  with_sched (fun s =>
    {| clock := clock s;
       timers := timers s ++
         [{| timer_id := next_timer s; due := (clock s + delay)%N; action := cb |}];
       next_timer := S (next_timer s);
       navbar_inThrottle := navbar_inThrottle s;
       animate_inThrottle := animate_inThrottle s;
       progress_inThrottle := progress_inThrottle s;
       resize_timeoutId := resize_timeoutId s |}) w.

(** [clearTimeout(id)]; [clearTimeout(undefined)] does nothing. *)
Definition clearTimeout (id : option nat) (w : World) : World :=
  match id with
  | None => w
  | Some i =>
      with_sched (fun s =>
        {| clock := clock s;
           timers := filter (fun t => timer_id t <> i) (timers s);
           next_timer := next_timer s;
           navbar_inThrottle := navbar_inThrottle s;
           animate_inThrottle := animate_inThrottle s;
           progress_inThrottle := progress_inThrottle s;
           resize_timeoutId := resize_timeoutId s |}) w
  end.

Definition inThrottle (h : throttled) (w : World) : bool :=
  match h with
  | NavbarScroll => navbar_inThrottle (sched w)
  | AnimateOnScroll => animate_inThrottle (sched w)
  | UpdateScrollProgress => progress_inThrottle (sched w)
  end.

Definition set_inThrottle (h : throttled) (b : bool) (w : World) : World :=
  with_sched (fun s =>
    {| clock := clock s; timers := timers s; next_timer := next_timer s;
       navbar_inThrottle :=
         match h with NavbarScroll => b | _ => navbar_inThrottle s end;
       animate_inThrottle :=
         match h with AnimateOnScroll => b | _ => animate_inThrottle s end;
       progress_inThrottle :=
         match h with UpdateScrollProgress => b | _ => progress_inThrottle s end;
       resize_timeoutId := resize_timeoutId s |}) w.

Definition set_resize_timeoutId (id : option nat) (w : World) : World :=
  with_sched (fun s =>
    {| clock := clock s; timers := timers s; next_timer := next_timer s;
       navbar_inThrottle := navbar_inThrottle s;
       animate_inThrottle := animate_inThrottle s;
       progress_inThrottle := progress_inThrottle s;
       resize_timeoutId := id |}) w.

(** ** [utils] *)

Module utils.

(** [throttle(func, limit)]: the wrapper runs [func], then raises the
    closure's flag and arms a timer of [limit] ms that lowers it again;
    while the flag is up a call does nothing. *)
Definition throttle {A} (h : throttled) (func : A -> World -> World)
    (limit : N) (args : A) (w : World) : World :=
  if inThrottle h w then w
  else setTimeout (ResetThrottle h) limit (set_inThrottle h true (func args w)).

(** [debounce(func, delay)] for the one debounced closure of the script:
    the pending timer is cleared and a new one armed. *)
Definition debounce (cb : callback) (delay : N) (w : World) : World :=
  let w1 := clearTimeout (resize_timeoutId (sched w)) w in
  set_resize_timeoutId (Some (next_timer (sched w1))) (setTimeout cb delay w1).

(** [smoothScrollTo(element, offset = 80)], given [element.offsetTop]. *)
Definition smoothScrollTo (offsetTop : Z) (w : World) : World :=
  with_scrollTo (Some (offsetTop - 80)%Z) w.

End utils.

(** ** [navigation] *)

Module navigation.

Definition toggleMobileMenu (w : World) : World :=
  let w1 := with_state (fun s =>
    {| isMenuOpen := negb (isMenuOpen s);
       isScrolled := isScrolled s;
       animatedElements := animatedElements s |}) w in
  with_menu (fun m =>
    {| mobileMenu_classList := ClassList.toggle "hidden" (mobileMenu_classList m);
       icon_classList :=
         ClassList.toggle "fa-times" (ClassList.toggle "fa-bars" (icon_classList m));
       navbar_classList := navbar_classList m;
       body_classList := body_classList m;
       body_overflow := if isMenuOpen (state w1) then "hidden" else "" |}) w1.

Definition closeMobileMenu (w : World) : World :=
  if isMenuOpen (state w) then
    let w1 := with_state (fun s =>
      {| isMenuOpen := false;
         isScrolled := isScrolled s;
         animatedElements := animatedElements s |}) w in
    with_menu (fun m =>
      {| mobileMenu_classList := ClassList.add "hidden" (mobileMenu_classList m);
         icon_classList :=
           ClassList.remove "fa-times" (ClassList.add "fa-bars" (icon_classList m));
         navbar_classList := navbar_classList m;
         body_classList := body_classList m;
         body_overflow := "" |}) w1
  else w.

Definition navbarScroll_body (_ : unit) (w : World) : World :=
  let scrolled := PrimFloat.ltb (float_of_Z 50) (scrollY (layout w)) in
  if negb (Bool.eqb scrolled (isScrolled (state w))) then
    let w1 := with_state (fun s =>
      {| isMenuOpen := isMenuOpen s;
         isScrolled := scrolled;
         animatedElements := animatedElements s |}) w in
    with_menu (fun m =>
      {| mobileMenu_classList := mobileMenu_classList m;
         icon_classList := icon_classList m;
         navbar_classList :=
           ClassList.toggle_force "navbar-scrolled" scrolled (navbar_classList m);
         body_classList := body_classList m;
         body_overflow := body_overflow m |}) w1
  else w.

Definition handleNavbarScroll : World -> World :=
  utils.throttle NavbarScroll navbarScroll_body 10 tt.

Definition startsWith_hash (href : string) : bool :=
  match href with
  | String a _ => Ascii.eqb a "#"%char
  | EmptyString => false
  end.

(** [handleSmoothScroll(e)], given the link's [href] and what
    [document.querySelector(href)] finds: nothing, or an element with its
    [offsetTop]. *)
Definition handleSmoothScroll (href : string) (target : option Z) (w : World)
    : World :=
  if startsWith_hash href then
    match target with
    | Some offsetTop => closeMobileMenu (utils.smoothScrollTo offsetTop w)
    | None => w
    end
  else w.

End navigation.

(** ** [animations] *)

Module animations.

(** The body of the [forEach] in [animateOnScroll], for one element. *)
Definition reveal (w : World) (el : elem * float) : World :=
  let '(element, elementPosition) := el in
  if bool_decide (element ∈ animatedElements (state w)) then w
  else
    let screenPosition :=
      PrimFloat.mul (float_of_Z (innerHeight (layout w))) lit_0_8 in
    if PrimFloat.ltb elementPosition screenPosition then
      let w1 := update_style element (fun st =>
        {| opacity := "1"; transform := "translateY(0)";
           boxShadow := boxShadow st; width := width st |}) w in
      with_state (fun s =>
        {| isMenuOpen := isMenuOpen s;
           isScrolled := isScrolled s;
           animatedElements := {[element]} ∪ animatedElements s |}) w1
    else w.

Definition scan (_ : unit) (w : World) : World :=
  fold_left reveal (fadeIn (layout w)) w.

Definition animateOnScroll_limit : N := 50.

Definition animateOnScroll : World -> World :=
  utils.throttle AnimateOnScroll scan animateOnScroll_limit tt.

(** [initScrollProgress()]: a new [div.scroll-progress] at the end of the
    body; its handle is returned. *)
Definition initScrollProgress (w : World) : elem * World :=
  let progressBar := next_elem (formDom w) in
  (progressBar,
   with_form (fun f =>
     {| body := body f ++ [Node progressBar "scroll-progress" "" []];
        contactForm := contactForm f;
        next_elem := S (next_elem f);
        fields := fields f; field_defaults := field_defaults f;
        button_innerHTML := button_innerHTML f;
        button_disabled := button_disabled f |}) w).

(** [scrollHeight - innerHeight]: both operands are integers, and so is
    their difference. *)
Definition documentHeight (l : Layout) : Z :=
  (scrollHeight l - innerHeight l)%Z.

Definition scrollPercentage (l : Layout) : float :=
  PrimFloat.mul
    (PrimFloat.div (scrollY l) (float_of_Z (documentHeight l)))
    (float_of_Z 100).

Definition progress_body (progressBar : elem) (w : World) : World :=
  update_style progressBar (fun st =>
    {| opacity := opacity st; transform := transform st;
       boxShadow := boxShadow st;
       width := WidthPercent (scrollPercentage (layout w)) |}) w.

Definition updateScrollProgress : elem -> World -> World :=
  utils.throttle UpdateScrollProgress progress_body 10.

End animations.

(** ** [forms] *)

Module forms.

(** The class string of the message node for a [type] argument. *)
Definition message_className (type : string) : string :=
  "form-message p-4 rounded-lg mb-4 " +:+
  (if String.eqb type "success"
   then "bg-green-100 text-green-800 border border-green-200"
   else if String.eqb type "error"
   then "bg-red-100 text-red-800 border border-red-200"
   else "bg-blue-100 text-blue-800 border border-blue-200").

(** The body once [document.querySelector('.form-message')], when it
    finds a node, has removed it. *)
Definition without_existing (d : list node) : list node :=
  match Dom.querySelector "form-message" d with
  | Some existingMessage => Dom.remove existingMessage d
  | None => d
  end.

Definition showMessage (message : string) (type : string) (w : World) : World :=
  let messageDiv := next_elem (formDom w) in
  let w1 := with_form (fun f =>
    {| body :=
         Dom.prepend (contactForm f)
           (Node messageDiv (message_className type) message [])
           (without_existing (body f));
       contactForm := contactForm f;
       next_elem := S (next_elem f);
       fields := fields f; field_defaults := field_defaults f;
       button_innerHTML := button_innerHTML f;
       button_disabled := button_disabled f |}) w in
  setTimeout (RemoveMessage messageDiv) 5000 w1.

Definition emailRegex : Regex.pattern :=
  [Regex.OneOrMore Regex.NotSpaceNorAt;
   Regex.One (Regex.Literal JsString.at_sign);
   Regex.OneOrMore Regex.NotSpaceNorAt;
   Regex.One (Regex.Literal JsString.full_stop);
   Regex.OneOrMore Regex.NotSpaceNorAt].

Definition isValidEmail (email : JsString.t) : bool :=
  Regex.test emailRegex email.

Definition validateContactForm (data : FormData) (w : World) : bool * World :=
  if negb (JsString.truthy (JsString.trim (name data))) then
    (false, showMessage "Please enter your name." "error" w)
  else if negb (JsString.truthy (JsString.trim (email data)))
          || negb (isValidEmail (email data)) then
    (false, showMessage "Please enter a valid email address." "error" w)
  else if negb (JsString.truthy (JsString.trim (subject data))) then
    (false, showMessage "Please enter a subject." "error" w)
  else if negb (JsString.truthy (JsString.trim (message data))) then
    (false, showMessage "Please enter a message." "error" w)
  else (true, w).

(** [submitContactForm(data)] arms the 2000 ms timer that resolves the
    promise; [handleContactForm] is suspended on that promise, with the
    button's original label in hand. *)
Definition submitContactForm (data : FormData) (originalText : string)
    (w : World) : World :=
  setTimeout (SubmitDone data originalText) 2000 w.

Definition set_button (html : string) (disabled : bool) (w : World) : World :=
  with_form (fun f =>
    {| body := body f; contactForm := contactForm f; next_elem := next_elem f;
       fields := fields f; field_defaults := field_defaults f;
       button_innerHTML := html;
       button_disabled := disabled |}) w.

(** [e.target.reset()]. *)
Definition reset (w : World) : World :=
  with_form (fun f =>
    {| body := body f; contactForm := contactForm f; next_elem := next_elem f;
       fields := field_defaults f; field_defaults := field_defaults f;
       button_innerHTML := button_innerHTML f;
       button_disabled := button_disabled f |}) w.

Definition dquote : string := String (ascii_of_N 34) EmptyString.

(** The label shown while sending: the text, then the spinner icon
    [<i class=...></i>] with its class attribute in double quotes. *)
Definition sending_label : string :=
  "Sending... <i class=" +:+ dquote +:+ "fas fa-spinner fa-spin ml-2"
    +:+ dquote +:+ "></i>".

(** [handleContactForm(e)] up to its [await]. *)
Definition handleContactForm (w : World) : World :=
  let data := fields (formDom w) in
  let '(valid, w1) := validateContactForm data w in
  if negb valid then w1
  else
    let originalText := button_innerHTML (formDom w1) in
    let w2 :=
      set_button sending_label true w1 in
    submitContactForm data originalText w2.

(** The timer of [submitContactForm] fires: it logs and resolves, and
    [handleContactForm] resumes after its [await] and runs its [finally]. *)
Definition submit_done (data : FormData) (originalText : string) (w : World)
    : World :=
  let w1 := with_console (fun c => c ++ ["Form submitted:"]) w in
  let w2 :=
    showMessage "Thank you for your message! I'll get back to you soon."
      "success" w1 in
  set_button originalText false (reset w2).

End forms.

(** ** [projects] and [skills]: hover effects on [this] *)

Module projects.

Definition handleCardHover (this : elem) (w : World) : World :=
  update_style this (fun st =>
    {| opacity := opacity st;
       transform := "translateY(-10px) scale(1.02)";
       boxShadow := "0 20px 40px rgba(0, 0, 0, 0.15)";
       width := width st |}) w.

Definition handleCardLeave (this : elem) (w : World) : World :=
  update_style this (fun st =>
    {| opacity := opacity st;
       transform := "translateY(0) scale(1)";
       boxShadow := "";
       width := width st |}) w.

End projects.

Module skills.

Definition handleIconHover (this : elem) (w : World) : World :=
  update_style this (fun st =>
    {| opacity := opacity st;
       transform := "translateY(-5px) scale(1.1)";
       boxShadow := boxShadow st;
       width := width st |}) w.

Definition handleIconLeave (this : elem) (w : World) : World :=
  update_style this (fun st =>
    {| opacity := opacity st;
       transform := "translateY(0) scale(1)";
       boxShadow := boxShadow st;
       width := width st |}) w.

End skills.

(** ** [theme] *)

Module theme.

Definition setTheme (themeName : string) (w : World) : World :=
  with_theme (fun t =>
    {| root_className := themeName;
       localStorage := <["theme" := themeName]> (localStorage t) |}) w.

(** [localStorage.getItem('theme') || 'light']: a missing entry and the
    empty string are both falsy. *)
Definition savedTheme (w : World) : string :=
  match localStorage (themeDom w) !! "theme" with
  | Some s => if String.eqb s "" then "light" else s
  | None => "light"
  end.

Definition init (w : World) : World := setTheme (savedTheme w) w.

Definition toggle (w : World) : World :=
  let currentTheme := root_className (themeDom w) in
  let newTheme := if String.eqb currentTheme "dark" then "light" else "dark" in
  setTheme newTheme w.

End theme.

(** ** [accessibility] *)

Module accessibility.

Definition set_body_classList (f : ClassList.t -> ClassList.t) (w : World)
    : World :=
  with_menu (fun m =>
    {| mobileMenu_classList := mobileMenu_classList m;
       icon_classList := icon_classList m;
       navbar_classList := navbar_classList m;
       body_classList := f (body_classList m);
       body_overflow := body_overflow m |}) w.

(** The two [keydown] listeners, in the order they are registered. *)
Definition keydown (key : string) (w : World) : World :=
  let w1 :=
    if String.eqb key "Escape" && isMenuOpen (state w)
    then navigation.closeMobileMenu w else w in
  set_body_classList (ClassList.add "keyboard-navigation") w1.

Definition mousedown (w : World) : World :=
  set_body_classList (ClassList.remove "keyboard-navigation") w.

End accessibility.

(** ** Start-up and the event loop *)

Module init.

(** The body of the debounced [resize] listener. *)
Definition resize_check (w : World) : World :=
  if (768 <? innerWidth (layout w))%Z && isMenuOpen (state w)
  then navigation.closeMobileMenu w else w.

(** [init.all()], as far as it changes the world: the progress bar is
    created, the first fade-in scan runs, the theme is initialised and
    the two start-up lines are logged.  The handle of the progress bar,
    which the scroll listener keeps, is returned. *)
Definition all (w : World) : elem * World :=
  let '(progressBar, w1) := animations.initScrollProgress w in
  let w2 := animations.animateOnScroll w1 in
  let w3 := theme.init w2 in
  (progressBar,
   with_console (fun c =>
     c ++ ["Page view tracked"; "Portfolio website initialized successfully!"]) w3).

End init.

Definition run_callback (cb : callback) (w : World) : World :=
  match cb with
  | ResetThrottle h => set_inThrottle h false w
  | RemoveMessage n =>
      with_form (fun f =>
        {| body := Dom.remove n (body f);
           contactForm := contactForm f; next_elem := next_elem f;
           fields := fields f; field_defaults := field_defaults f;
           button_innerHTML := button_innerHTML f;
           button_disabled := button_disabled f |}) w
  | SubmitDone data originalText => forms.submit_done data originalText w
  | ResizeCheck => init.resize_check w
  end.

(** What can happen to the page after start-up. *)
Inductive event :=
| Reflow (l : Layout)        (* the user scrolls or resizes; geometry changes *)
| Typing (data : FormData)   (* the user edits the form fields *)
| Elapse (dt : N)            (* time passes *)
| Fire (id : nat)            (* a timer that is due runs its callback *)
| Scroll                     (* [scroll] on [window] *)
| Resize                     (* [resize] on [window] *)
| ClickMenuButton
| ClickAnchor (href : string) (target : option Z)
| Submit
| KeyDown (key : string)
| MouseDown
| MouseEnterCard (card : elem)
| MouseLeaveCard (card : elem)
| MouseEnterSkill (icon : elem)
| MouseLeaveSkill (icon : elem)
| ToggleTheme.               (* a call of the exported [theme.toggle] *)

Definition set_fields (data : FormData) (w : World) : World :=
  with_form (fun f =>
    {| body := body f; contactForm := contactForm f; next_elem := next_elem f;
       fields := data; field_defaults := field_defaults f;
       button_innerHTML := button_innerHTML f;
       button_disabled := button_disabled f |}) w.

Definition elapse (dt : N) (w : World) : World :=
  with_sched (fun s =>
    {| clock := (clock s + dt)%N; timers := timers s;
       next_timer := next_timer s;
       navbar_inThrottle := navbar_inThrottle s;
       animate_inThrottle := animate_inThrottle s;
       progress_inThrottle := progress_inThrottle s;
       resize_timeoutId := resize_timeoutId s |}) w.

(** A timer runs no earlier than its due time, and once. *)
Definition fire (id : nat) (w : World) : World :=
  match filter (fun t => timer_id t = id) (timers (sched w)) with
  | t :: _ =>
      if (due t <=? clock (sched w))%N
      then run_callback (action t) (clearTimeout (Some id) w)
      else w
  | [] => w
  end.

Section Page.

(** The handle returned by [initScrollProgress] at start-up, captured by
    the scroll listener of [init.animations]. *)
Variable progressBar : elem.

(** The listeners, in the order [init] registers them. *)
Definition step (e : event) (w : World) : World :=
  match e with
  | Reflow l => with_layout l w
  | Typing data => set_fields data w
  | Elapse dt => elapse dt w
  | Fire id => fire id w
  | Scroll =>
      animations.updateScrollProgress progressBar
        (animations.animateOnScroll (navigation.handleNavbarScroll w))
  | Resize => utils.debounce ResizeCheck 250 w
  | ClickMenuButton => navigation.toggleMobileMenu w
  | ClickAnchor href target => navigation.handleSmoothScroll href target w
  | Submit => forms.handleContactForm w
  | KeyDown key => accessibility.keydown key w
  | MouseDown => accessibility.mousedown w
  | MouseEnterCard card => projects.handleCardHover card w
  | MouseLeaveCard card => projects.handleCardLeave card w
  | MouseEnterSkill icon => skills.handleIconHover icon w
  | MouseLeaveSkill icon => skills.handleIconLeave icon w
  | ToggleTheme => theme.toggle w
  end.

Definition run (es : list event) (w : World) : World :=
  fold_left (fun w e => step e w) es w.

End Page.

(** ** The specification's side

    Definitions that follow the words of the specification, to be compared
    with the code above. *)

Module Spec.
Import JsString.

(** A field is filled in when it holds something besides white space (a
    field that does not is what the specification calls blank). *)
Definition filled (s : JsString.t) : bool := negb (forallb is_space s).

(** The strings of [^[^\s@]+@[^\s@]+\.[^\s@]+$], spelled out: a local
    part, an at sign, a domain, a full stop and a suffix, the three parts
    non-empty and free of white space and at signs. *)
Definition plain (c : code_unit) : Prop :=
  is_space c = false /\ c <> at_sign.

Definition email_shape (s : JsString.t) : Prop :=
  exists l d t : JsString.t,
    l <> [] /\ d <> [] /\ t <> [] /\
    Forall plain l /\ Forall plain d /\ Forall plain t /\
    s = l ++ at_sign :: d ++ full_stop :: t.

Inductive concern := Name | Email | Subject | Message.

(** The four checks, in their fixed order. *)
Definition checks (data : FormData) : list (concern * bool) :=
  [ (Name, filled (name data));
    (Email, filled (email data) && forms.isValidEmail (email data));
    (Subject, filled (subject data));
    (Message, filled (message data)) ].

(** The concern of the first check that fails, if any does. *)
Definition first_failure (data : FormData) : option concern :=
  fst <$> List.find (fun c => negb (snd c)) (checks data).

Definition message_of (c : concern) : string :=
  match c with
  | Name => "Please enter your name."
  | Email => "Please enter a valid email address."
  | Subject => "Please enter a subject."
  | Message => "Please enter a message."
  end.

(** The overflow style that goes with a menu flag. *)
Definition overflow_for (open : bool) : string :=
  if open then "hidden" else "".

End Spec.

(** Observations on a world used in the statements below. *)

Definition is_submit_timer (t : timer) : bool :=
  match action t with SubmitDone _ _ => true | _ => false end.

Definition is_message_timer (t : timer) : bool :=
  match action t with RemoveMessage _ => true | _ => false end.

(** The child nodes of the contact form. *)
Definition form_children (w : World) : option (list node) :=
  Dom.children_of (contactForm (formDom w)) (body (formDom w)).

(** The nodes that precede the contact form among the children of its
    parent, when the form is a child of the element [parent]. *)
Fixpoint before_form (form : elem) (siblings : list node) : list node :=
  match siblings with
  | [] => []
  | k :: rest => if Nat.eqb (node_id k) form then [] else k :: before_form form rest
  end.

(** ** Sample pages *)

Module Sample.

Definition blank_form : FormData :=
  {| name := []; email := []; subject := []; message := [] |}.

Definition filled_form : FormData :=
  {| name := JsString.of_string "Ada";
     email := JsString.of_string "a@b.co";
     subject := JsString.of_string "Hello";
     message := JsString.of_string "A few words." |}.

Definition no_subject : FormData :=
  {| name := JsString.of_string "Ada";
     email := JsString.of_string "a@b.co";
     subject := JsString.of_string "  ";
     message := JsString.of_string "A few words." |}.

Definition at_rest : Layout :=
  {| scrollY := PrimFloat.zero; innerHeight := 800; innerWidth := 400;
     scrollHeight := 2400; fadeIn := [(7, float_of_Z 900)] |}.

(** A section (handle 1) holding a heading (2) and the contact form (3)
    with one control (4). *)
Definition page_body : list node :=
  [Node 1 "section" ""
     [Node 2 "title" "Contact" [];
      Node 3 "space-y-6" "" [Node 4 "field" "" []]]].

Definition page : World :=
  {| state := {| isMenuOpen := false; isScrolled := false;
                 animatedElements := ∅ |};
     menuDom := {| mobileMenu_classList := ["md:hidden"; "hidden"];
                   icon_classList := ["fas"; "fa-bars"; "text-xl"];
                   navbar_classList := ["fixed"];
                   body_classList := [];
                   body_overflow := "" |};
     themeDom := {| root_className := ""; localStorage := ∅ |};
     layout := at_rest;
     styles := ∅;
     formDom := {| body := page_body; contactForm := 3; next_elem := 10;
                   fields := blank_form; field_defaults := blank_form;
                   button_innerHTML := "Send Message";
                   button_disabled := false |};
     sched := {| clock := 0; timers := []; next_timer := 0;
                 navbar_inThrottle := false; animate_inThrottle := false;
                 progress_inThrottle := false; resize_timeoutId := None |};
     scrollTo_top := None;
     console := [] |}.

(** The same page with an inline [overflow: scroll] on the body. *)
Definition page_scroll : World :=
  with_menu (fun m =>
    {| mobileMenu_classList := mobileMenu_classList m;
       icon_classList := icon_classList m;
       navbar_classList := navbar_classList m;
       body_classList := body_classList m;
       body_overflow := "scroll" |}) page.

(** The same page after a visit that stored the theme ["blue"]. *)
Definition page_blue : World :=
  with_theme (fun t =>
    {| root_className := root_className t;
       localStorage := <["theme" := "blue"]> (localStorage t) |}) page.

(** A page no taller than the window. *)
Definition short_layout : Layout :=
  {| scrollY := PrimFloat.zero; innerHeight := 800; innerWidth := 400;
     scrollHeight := 800; fadeIn := [] |}.

(** The fade-in element 7 at 100px from the top of an 800px window. *)
Definition in_view : Layout :=
  {| scrollY := float_of_Z 800; innerHeight := 800; innerWidth := 400;
     scrollHeight := 2400; fadeIn := [(7, float_of_Z 100)] |}.

End Sample.

(** The three operations of the theme controller. *)
Inductive theme_op :=
| ThemeInit
| ThemeSet (themeName : string)
| ThemeToggle.

Definition run_theme_op (op : theme_op) (w : World) : World :=
  match op with
  | ThemeInit => theme.init w
  | ThemeSet themeName => theme.setTheme themeName w
  | ThemeToggle => theme.toggle w
  end.

(** The stored preference and the class of the root element agree. *)
Definition theme_agrees (w : World) : Prop :=
  localStorage (themeDom w) !! "theme" = Some (root_className (themeDom w)).

(** Every element recorded as animated is fully opaque. *)
Definition revealed (w : World) : Prop :=
  forall e, e ∈ animatedElements (state w) -> opacity (style_of w e) = "1".

(** The scan's test [elementPosition < window.innerHeight * 0.8]. *)
Definition above_threshold (l : Layout) (top : float) : bool :=
  PrimFloat.ltb top (PrimFloat.mul (float_of_Z (innerHeight l)) lit_0_8).

(** Timer identifiers are handed out in increasing order: every pending
    timer has an identifier below the next one. *)
Definition timers_fresh (w : World) : Prop :=
  Forall (fun t => timer_id t < next_timer (sched w)) (timers (sched w)).

(** A scroll tick, a reflow that brings the fade-in element 7 into view
    20 ms later, and a second scroll tick; every timer is given its chance
    to run before the second tick. *)
Definition two_ticks_20ms_apart : list event :=
  [Scroll; Reflow Sample.in_view; Elapse 20; Fire 0; Fire 1; Fire 2; Scroll].

(** The same with 50 ms between the two ticks. *)
Definition two_ticks_50ms_apart : list event :=
  [Scroll; Reflow Sample.in_view; Elapse 50; Fire 0; Fire 1; Fire 2; Scroll].

(** The sample page when it is no taller than the window. *)
Definition short_page : World := with_layout Sample.short_layout Sample.page.

(** A page shorter than the window, scrolled by 40px all the same (as
    during an elastic overscroll). *)
Definition shorter_page : World :=
  with_layout
    {| scrollY := float_of_Z 40; innerHeight := 800; innerWidth := 400;
       scrollHeight := 600; fadeIn := [] |} Sample.page.

(** The sample page with the form filled in, the subject left blank. *)
Definition page_no_subject : World := set_fields Sample.no_subject Sample.page.

(** The sample page with the form filled in. *)
Definition page_filled : World := set_fields Sample.filled_form Sample.page.

(** The sample page after a first message. *)
Definition page_with_message : World :=
  forms.showMessage "Please enter your name." "error" Sample.page.

(** What the fade-in animation owns: the set of animated elements and the
    inline styles. *)
Definition animation_view (w : World) : gset elem * gmap elem style :=
  (animatedElements (state w), styles w).

(** What the freshness of timer identifiers depends on. *)
Definition timer_view (w : World) : list timer * nat :=
  (timers (sched w), next_timer (sched w)).

(** ** Invariants of the page *)

(** The menu flag and its mirror in the document: the panel is hidden, the
    icon shows bars and the body scrolls exactly while the menu is closed. *)
Definition menu_mirrors (w : World) : Prop :=
  ClassList.contains "hidden" (mobileMenu_classList (menuDom w))
    = negb (isMenuOpen (state w))
  /\ ClassList.contains "fa-bars" (icon_classList (menuDom w))
     = negb (isMenuOpen (state w))
  /\ ClassList.contains "fa-times" (icon_classList (menuDom w))
     = isMenuOpen (state w)
  /\ body_overflow (menuDom w) = Spec.overflow_for (isMenuOpen (state w)).

(** The scrolled flag and its mirror on the navbar. *)
Definition navbar_mirrors (w : World) : Prop :=
  ClassList.contains "navbar-scrolled" (navbar_classList (menuDom w))
    = isScrolled (state w).

Definition is_resize_timer (t : timer) : bool :=
  match action t with ResizeCheck => true | _ => false end.

(** The debounced resize listener keeps track of its pending timer: timer
    identifiers are fresh, and a pending resize check is the one whose
    identifier the closure holds. *)
Definition resize_tracked (w : World) : Prop :=
  timers_fresh w
  /\ Forall (fun t => is_resize_timer t = true ->
                      resize_timeoutId (sched w) = Some (timer_id t))
       (timers (sched w)).

(** A wide window with the menu open. *)
Definition wide_open_page : World :=
  with_layout
    {| scrollY := PrimFloat.zero; innerHeight := 800; innerWidth := 1024;
       scrollHeight := 2400; fadeIn := [] |}
    (navigation.toggleMobileMenu Sample.page).

(** The text of the success message. *)
Definition thank_you : string :=
  "Thank you for your message! I'll get back to you soon.".

(** The number of elements of a class in a tree. *)
Fixpoint count_node (tok : string) (n : node) : nat :=
  let 'Node _ c _ kids := n in
  (if Dom.has_class tok c then 1 else 0) +
  (fix count_list (l : list node) : nat :=
     match l with
     | [] => 0
     | k :: l' => count_node tok k + count_list l'
     end) kids.

Fixpoint count_class (tok : string) (d : list node) : nat :=
  match d with
  | [] => 0
  | k :: d' => count_node tok k + count_class tok d'
  end.

(** The handles of the document are distinct and older than the next one
    that [createElement] hands out. *)
Definition document_ok (w : World) : Prop :=
  NoDup (Dom.ids (body (formDom w)))
  /\ Forall (fun i => i < next_elem (formDom w)) (Dom.ids (body (formDom w))).

(** A well-formed document showing at most one message. *)
Definition one_message (w : World) : Prop :=
  document_ok w /\ count_class "form-message" (body (formDom w)) <= 1.

(** The four hover handlers of [projects] and [skills]. *)
Definition hover_handlers : list (elem -> World -> World) :=
  [projects.handleCardHover; projects.handleCardLeave;
   skills.handleIconHover; skills.handleIconLeave].

(** ** [performance]: lazy loading of images

    The images and the intersection observer are a world of their own: no
    other part of the script reads or writes them. *)

Module performance.

(** The [src] and [data-src] attributes of an image; [None] is an absent
    attribute. *)
Record img := {
  src : option string;
  data_src : option string
}.

Record LazyImages := {
  images : gmap elem img;
  observing : gset elem
}.

(** [initLazyLoading()]: a new observer observes the images matching
    ['img[data-src]']. *)
Definition initLazyLoading (imgs : gmap elem img) : LazyImages :=
  {| images := imgs;
     observing := dom (filter (fun kv => is_Some (data_src kv.2)) imgs) |}.

(** [img.dataset.src], assigned to [img.src]: an absent attribute reads as
    [undefined], which the assignment turns into a string. *)
Definition dataset_src (im : option img) : string :=
  match im with
  | Some {| data_src := Some s |} => s
  | _ => "undefined"
  end.

(** The body of the callback for an entry that is intersecting. *)
Definition load (target : elem) (st : LazyImages) : LazyImages :=
  {| images :=
       <[target := {| src := Some (dataset_src (images st !! target));
                      data_src := None |}]> (images st);
     observing := observing st ∖ {[target]} |}.

(** An entry: its target and [isIntersecting]. *)
Definition on_entry (st : LazyImages) (entry : elem * bool) : LazyImages :=
  if entry.2 then load entry.1 st else st.

(** The observer's callback on a batch of entries. *)
Definition callback (entries : list (elem * bool)) (st : LazyImages)
    : LazyImages :=
  fold_left on_entry entries st.



End performance.

(** Two images, the first with a deferred source. *)
Definition sample_images : gmap elem performance.img :=
  <[20 := {| performance.src := None;
             performance.data_src := Some "photo.jpg" |}]>
    (<[21 := {| performance.src := Some "logo.png";
                performance.data_src := None |}]> ∅).

(** * Properties *)

(** ** Strings and the email pattern *)

Section StringFacts.
Import JsString.

Lemma trimStart_nil_iff (s : JsString.t) :
  trimStart s = [] <-> forallb is_space s = true.
Proof.
  induction s as [|c s IH]; simpl; [tauto|].
  destruct (is_space c); simpl; [exact IH|].
  split; discriminate.
Qed.

Lemma trimStart_keeps_nonspace (s : JsString.t) :
  forallb is_space (trimStart s) = true -> forallb is_space s = true.
Proof.
  induction s as [|c s IH]; simpl; [done|].
  destruct (is_space c) eqn:Hc; simpl; [exact IH|].
  rewrite Hc. discriminate.
Qed.

Lemma forallb_rev (f : code_unit -> bool) (s : JsString.t) :
  forallb f (rev s) = forallb f s.
Proof.
  induction s as [|c s IH]; simpl; [done|].
  rewrite forallb_app, IH. simpl. rewrite andb_true_r. apply andb_comm.
Qed.

(** [!s.trim()] holds exactly for the strings made of white space only. *)
Lemma truthy_trim (s : JsString.t) :
  truthy (trim s) = Spec.filled s.
Proof.
  unfold Spec.filled, trim, trimEnd.
  destruct (forallb is_space s) eqn:Hs; simpl.
  - apply trimStart_nil_iff in Hs. rewrite Hs. reflexivity.
  - destruct (rev (trimStart (rev (trimStart s)))) as [|c r] eqn:Hr; [|done].
    exfalso.
    assert (Hn : trimStart (rev (trimStart s)) = []).
    { apply (f_equal (@rev _)) in Hr. rewrite rev_involutive in Hr. exact Hr. }
    apply trimStart_nil_iff in Hn. rewrite forallb_rev in Hn.
    apply trimStart_keeps_nonspace in Hn. congruence.
Qed.

End StringFacts.

Section RegexFacts.
Import JsString Regex.

Lemma test_more_cons k p c s :
  test (OneOrMore k :: p) (c :: s)
  = class_matches k c && (test (OneOrMore k :: p) s || test p s).
Proof. reflexivity. Qed.

Lemma test_more_nil k p : test (OneOrMore k :: p) [] = false.
Proof. reflexivity. Qed.

Lemma test_sound p : forall s, test p s = true -> matches p s.
Proof.
  induction p as [|[k|k] p IH]; intros s.
  - destruct s; [constructor|discriminate].
  - destruct s as [|c s]; simpl; [discriminate|].
    intros [Hc Hs]%andb_prop. constructor; auto.
  - induction s as [|c s IHs]; [discriminate|].
    rewrite test_more_cons.
    intros [Hc [Hm|Hp]%orb_prop]%andb_prop.
    + specialize (IHs Hm). inversion IHs as [| |k' p' u s0 Hu Hall Hrest]; subst.
      apply (matches_more k p (c :: u) s0); [done|by constructor|done].
    + apply (matches_more k p [c] s); [done|by repeat constructor|auto].
Qed.

Lemma test_complete p : forall s, matches p s -> test p s = true.
Proof.
  intros s H. induction H as [|k p c s Hc _ IH|k p u s Hu Hall _ IH].
  - reflexivity.
  - simpl. by rewrite Hc, IH.
  - induction u as [|c u IHu]; [done|].
    inversion Hall as [|? ? Hc Hall']; subst.
    change ((c :: u) ++ s) with (c :: (u ++ s)).
    rewrite test_more_cons, Hc.
    destruct u as [|c' u'].
    + change ([] ++ s) with s. rewrite IH. apply orb_true_r.
    + rewrite IHu; [done|done|done].
Qed.

(** The backtracking matcher decides the language of the pattern. *)
Lemma test_matches p s : test p s = true <-> matches p s.
Proof. split; [apply test_sound|apply test_complete]. Qed.

Lemma plain_class c : class_matches NotSpaceNorAt c = true <-> Spec.plain c.
Proof.
  unfold Spec.plain. simpl.
  rewrite andb_true_iff, !negb_true_iff, N.eqb_neq. tauto.
Qed.

Lemma Forall_plain_class u :
  Forall (fun c => class_matches NotSpaceNorAt c = true) u <-> Forall Spec.plain u.
Proof. apply Forall_iff. intros c. apply plain_class. Qed.

Lemma email_matches_shape s :
  matches forms.emailRegex s <-> Spec.email_shape s.
Proof.
  unfold forms.emailRegex, Spec.email_shape. split.
  - intros H.
    inversion H as [| |? ? l s1 Hl Fl H1]; subst; clear H.
    inversion H1 as [|? ? c1 s2 Hc1 H2|]; subst; clear H1.
    inversion H2 as [| |? ? d s3 Hd Fd H3]; subst; clear H2.
    inversion H3 as [|? ? c2 s4 Hc2 H4|]; subst; clear H3.
    inversion H4 as [| |? ? t s5 Ht Ft H5]; subst; clear H4.
    inversion H5; subst; clear H5.
    simpl in Hc1, Hc2. apply N.eqb_eq in Hc1, Hc2. subst c1 c2.
    exists l, d, t. rewrite app_nil_r.
    rewrite <- !Forall_plain_class. done.
  - intros (l & d & t & Hl & Hd & Ht & Fl & Fd & Ft & ->).
    rewrite <- Forall_plain_class in Fl, Fd, Ft.
    apply matches_more; [done..|].
    apply matches_one; [apply N.eqb_refl|].
    apply matches_more; [done..|].
    apply matches_one; [apply N.eqb_refl|].
    rewrite <- (app_nil_r t).
    apply matches_more; [done..|]. constructor.
Qed.

Lemma plain_not_at u : Forall Spec.plain u -> at_sign ∉ u.
Proof.
  intros H Hin. rewrite Forall_forall in H.
  destruct (H _ Hin) as [_ Hne]. done.
Qed.

(** A list splits in one way only around an element that occurs once. *)
Lemma split_unique (x : code_unit) (a b l r : JsString.t) :
  x ∉ l -> x ∉ r -> a ++ x :: b = l ++ x :: r -> a = l /\ b = r.
Proof.
  revert l. induction a as [|y a IH]; intros [|z l] Hl Hr; simpl; intros E.
  - by inversion E.
  - inversion E; subst. exfalso. apply Hl. left.
  - inversion E; subst. exfalso. apply Hr. apply elem_of_app. right. left.
  - inversion E; subst.
    destruct (IH l) as [-> ->]; [|done|done|done].
    intros Hin. apply Hl. by right.
Qed.

End RegexFacts.

(** C8.  [isValidEmail] accepts exactly the strings of the pattern
    [^[^\s@]+@[^\s@]+\.[^\s@]+$]: a local part, an at sign, a domain, a full
    stop and a suffix, each part non-empty and free of white space and at
    signs.  ["a@b.co"] is accepted; a string without an at sign is rejected,
    and so is a string whose part after an at sign holds no full stop. *)
Theorem isValidEmail_exactly_the_pattern :
  (forall s, forms.isValidEmail s = true <-> Regex.matches forms.emailRegex s)
  /\ (forall s, forms.isValidEmail s = true <-> Spec.email_shape s)
  /\ forms.isValidEmail (JsString.of_string "a@b.co") = true
  /\ (forall s, JsString.at_sign ∉ s -> forms.isValidEmail s = false)
  /\ (forall a b, JsString.full_stop ∉ b ->
        forms.isValidEmail (a ++ JsString.at_sign :: b) = false).
Proof.
  assert (Hshape : forall s, forms.isValidEmail s = true <-> Spec.email_shape s).
  { intros s. unfold forms.isValidEmail.
    rewrite test_matches. apply email_matches_shape. }
  split; [intros s; apply test_matches|].
  split; [exact Hshape|].
  split; [reflexivity|].
  split.
  - intros s Hno. apply not_true_is_false. intros Hv.
    apply Hshape in Hv as (l & d & t & _ & _ & _ & _ & _ & _ & ->).
    apply Hno. apply elem_of_app. right. left.
  - intros a b Hno. apply not_true_is_false. intros Hv.
    apply Hshape in Hv as (l & d & t & _ & _ & _ & Fl & Fd & Ft & E).
    apply split_unique in E as [_ ->].
    + apply Hno. apply elem_of_app. right. left.
    + by apply plain_not_at.
    + intros [Hd|Ht]%elem_of_app.
      * by apply (plain_not_at d).
      * apply elem_of_cons in Ht as [Ht|Ht]; [discriminate|].
        by apply (plain_not_at t).
Qed.

Example isValidEmail_rejects_missing_at :
  forms.isValidEmail (JsString.of_string "ab.co") = false.
Proof. reflexivity. Qed.

Example isValidEmail_rejects_missing_dot :
  forms.isValidEmail (JsString.of_string "a@bco") = false.
Proof. reflexivity. Qed.

Example isValidEmail_rejects_inner_space :
  forms.isValidEmail (JsString.of_string "a b@c.de") = false.
Proof. reflexivity. Qed.

Example isValidEmail_backtracks_on_dots :
  forms.isValidEmail (JsString.of_string "first.last@mail.example.org") = true.
Proof. reflexivity. Qed.

(** ** The mobile menu *)

Section ClassListFacts.
Import ClassList.

Lemma contains_spec tok l : contains tok l = true <-> tok ∈ l.
Proof. unfold contains. apply bool_decide_eq_true. Qed.

Lemma contains_remove tok x l :
  contains tok (remove x l) = if decide (tok = x) then false else contains tok l.
Proof.
  unfold contains, remove. apply eq_true_iff_eq.
  rewrite bool_decide_eq_true, list_elem_of_filter.
  destruct (decide (tok = x)) as [->|Hne].
  - split; [tauto|discriminate].
  - rewrite bool_decide_eq_true. tauto.
Qed.

Lemma contains_snoc tok x l :
  contains tok (l ++ [x]) = if decide (tok = x) then true else contains tok l.
Proof.
  unfold contains. apply eq_true_iff_eq.
  rewrite bool_decide_eq_true, elem_of_app, list_elem_of_singleton.
  destruct (decide (tok = x)) as [->|Hne].
  - tauto.
  - rewrite bool_decide_eq_true. tauto.
Qed.

(** Toggling a token flips its presence and no other. *)
Lemma contains_toggle tok x l :
  contains tok (toggle x l)
  = if decide (tok = x) then negb (contains x l) else contains tok l.
Proof.
  unfold toggle. destruct (contains x l) eqn:Hx.
  - rewrite contains_remove. by destruct (decide (tok = x)).
  - rewrite contains_snoc. by destruct (decide (tok = x)).
Qed.

Lemma contains_toggle_twice tok x l :
  contains tok (toggle x (toggle x l)) = contains tok l.
Proof.
  rewrite !contains_toggle.
  destruct (decide (tok = x)) as [->|]; [|done].
  destruct (decide (x = x)); [|done]. apply negb_involutive.
Qed.

End ClassListFacts.

Section MenuFacts.
Import navigation.

Lemma toggle_isMenuOpen w :
  isMenuOpen (state (toggleMobileMenu w)) = negb (isMenuOpen (state w)).
Proof. reflexivity. Qed.

Lemma toggle_body_overflow w :
  body_overflow (menuDom (toggleMobileMenu w))
  = Spec.overflow_for (negb (isMenuOpen (state w))).
Proof. reflexivity. Qed.

Lemma toggle_icon w :
  icon_classList (menuDom (toggleMobileMenu w))
  = ClassList.toggle "fa-times"
      (ClassList.toggle "fa-bars" (icon_classList (menuDom w))).
Proof. reflexivity. Qed.

Lemma toggle_mobileMenu w :
  mobileMenu_classList (menuDom (toggleMobileMenu w))
  = ClassList.toggle "hidden" (mobileMenu_classList (menuDom w)).
Proof. reflexivity. Qed.

(** After two toggles the overflow style is the one that goes with the
    original flag, whatever it was at the start. *)
Lemma toggle_twice_overflow w :
  body_overflow (menuDom (toggleMobileMenu (toggleMobileMenu w)))
  = Spec.overflow_for (isMenuOpen (state w)).
Proof.
  rewrite toggle_body_overflow, toggle_isMenuOpen. by rewrite negb_involutive.
Qed.

Lemma toggle_twice_icon tok w :
  ClassList.contains tok
    (icon_classList (menuDom (toggleMobileMenu (toggleMobileMenu w))))
  = ClassList.contains tok (icon_classList (menuDom w)).
Proof.
  rewrite !toggle_icon, !contains_toggle.
  destruct (decide (tok = "fa-times")) as [->|Ht].
  - destruct (decide ("fa-times" = "fa-bars")); [done|].
    destruct (decide ("fa-times" = "fa-times")); [|done].
    simpl. apply negb_involutive.
  - destruct (decide (tok = "fa-bars")) as [->|Hb]; [|done].
    destruct (decide ("fa-bars" = "fa-times")); [done|].
    destruct (decide ("fa-bars" = "fa-bars")); [|done].
    simpl. apply negb_involutive.
Qed.

End MenuFacts.

(** C7, as the code has it.  From a state whose body overflow style is the
    one the menu flag determines (["hidden"] while the menu is open, the
    empty string while it is closed), two calls of the menu toggle in a row
    bring back the flag, the body overflow style, and the presence of
    [fa-bars], of [fa-times] and of every other class of the icon and of the
    menu panel. *)
Theorem toggle_twice_restores (w : World) :
  body_overflow (menuDom w) = Spec.overflow_for (isMenuOpen (state w)) ->
  let w' := navigation.toggleMobileMenu (navigation.toggleMobileMenu w) in
  isMenuOpen (state w') = isMenuOpen (state w)
  /\ body_overflow (menuDom w') = body_overflow (menuDom w)
  /\ (forall tok, ClassList.contains tok (icon_classList (menuDom w'))
                  = ClassList.contains tok (icon_classList (menuDom w)))
  /\ (forall tok, ClassList.contains tok (mobileMenu_classList (menuDom w'))
                  = ClassList.contains tok (mobileMenu_classList (menuDom w))).
Proof.
  intros Hov w'. subst w'. split; [|split; [|split]].
  - rewrite !toggle_isMenuOpen. apply negb_involutive.
  - rewrite toggle_twice_overflow. by rewrite Hov.
  - intros tok. apply toggle_twice_icon.
  - intros tok. rewrite !toggle_mobileMenu. apply contains_toggle_twice.
Qed.

Lemma toggle_twice_restores_page :
  body_overflow (menuDom Sample.page)
    = Spec.overflow_for (isMenuOpen (state Sample.page))
  /\ let w' := navigation.toggleMobileMenu (navigation.toggleMobileMenu Sample.page) in
     isMenuOpen (state w') = isMenuOpen (state Sample.page)
     /\ body_overflow (menuDom w') = body_overflow (menuDom Sample.page)
     /\ (forall tok, ClassList.contains tok (icon_classList (menuDom w'))
                     = ClassList.contains tok (icon_classList (menuDom Sample.page)))
     /\ (forall tok, ClassList.contains tok (mobileMenu_classList (menuDom w'))
                     = ClassList.contains tok
                         (mobileMenu_classList (menuDom Sample.page))).
Proof.
  split; [reflexivity|].
  apply (toggle_twice_restores Sample.page). reflexivity.
Defined.

(** C7 as stated fails: with an inline [overflow: scroll] on the body and the
    menu closed, two toggles leave the empty string, not ["scroll"]. *)
Lemma toggle_twice_loses_overflow :
  body_overflow (menuDom Sample.page_scroll) = "scroll"
  /\ body_overflow
       (menuDom (navigation.toggleMobileMenu
                   (navigation.toggleMobileMenu Sample.page_scroll))) = ""
  /\ "" <> "scroll".
Proof. split; [reflexivity|]. split; [reflexivity|discriminate]. Qed.

(** The icon's tokens come back as a set; their order may change. *)
Example toggle_twice_reorders_icon :
  icon_classList
    (menuDom (navigation.toggleMobileMenu
                (navigation.toggleMobileMenu Sample.page)))
  = ["fas"; "text-xl"; "fa-bars"].
Proof. reflexivity. Qed.

(** C9.  With the menu flag down, the menu-close operation changes nothing:
    the world after it is the world before it, so the classes of the menu
    panel and of the icon, the body overflow style and the UI state are
    the same. *)
Theorem closeMobileMenu_closed_noop (w : World) :
  isMenuOpen (state w) = false ->
  navigation.closeMobileMenu w = w.
Proof. intros H. unfold navigation.closeMobileMenu. by rewrite H. Qed.

Lemma closeMobileMenu_closed_noop_page :
  isMenuOpen (state Sample.page) = false
  /\ navigation.closeMobileMenu Sample.page = Sample.page.
Proof.
  split; [reflexivity|].
  apply (closeMobileMenu_closed_noop Sample.page). reflexivity.
Defined.

(** ** What the handlers leave alone *)

Section Frames.
Context {B : Type} (proj : World -> B).

(** A projection of the world that the scheduler does not touch is
    carried through a throttled handler as through its body. *)
Lemma throttle_frame {A} h (func : A -> World -> World) limit args w :
  (forall f w, proj (with_sched f w) = proj w) ->
  (forall w, proj (func args w) = proj w) ->
  proj (utils.throttle h func limit args w) = proj w.
Proof.
  intros Hs Hf. unfold utils.throttle.
  destruct (inThrottle h w); [done|].
  unfold setTimeout, set_inThrottle. by rewrite !Hs, Hf.
Qed.

Lemma fold_left_frame {A} (f : World -> A -> World) l w :
  (forall w a, proj (f w a) = proj w) ->
  proj (fold_left f l w) = proj w.
Proof.
  intros Hf. revert w. induction l as [|a l IH]; intros w; simpl; [done|].
  by rewrite IH, Hf.
Qed.

End Frames.

Section ThemeFacts.

Lemma themeDom_showMessage m t w :
  themeDom (forms.showMessage m t w) = themeDom w.
Proof. reflexivity. Qed.

Lemma themeDom_closeMobileMenu w :
  themeDom (navigation.closeMobileMenu w) = themeDom w.
Proof. unfold navigation.closeMobileMenu. by destruct (isMenuOpen (state w)). Qed.

Lemma themeDom_reveal w el : themeDom (animations.reveal w el) = themeDom w.
Proof. unfold animations.reveal. destruct el. by repeat case_match. Qed.

Lemma themeDom_handleContactForm w :
  themeDom (forms.handleContactForm w) = themeDom w.
Proof.
  unfold forms.handleContactForm, forms.validateContactForm.
  by repeat case_match; simplify_eq.
Qed.

Lemma themeDom_run_callback cb w : themeDom (run_callback cb w) = themeDom w.
Proof.
  destruct cb; simpl; try done.
  unfold init.resize_check. case_match; [apply themeDom_closeMobileMenu|done].
Qed.

Lemma themeDom_fire id w : themeDom (fire id w) = themeDom w.
Proof.
  unfold fire. repeat case_match; try done.
  by rewrite themeDom_run_callback.
Qed.

(** Only the theme controller writes the root class and the storage. *)
Lemma themeDom_step pb e w :
  e <> ToggleTheme -> themeDom (step pb e w) = themeDom w.
Proof.
  intros He. destruct e; simpl; try done.
  - apply themeDom_fire.
  - unfold animations.updateScrollProgress, animations.animateOnScroll,
      navigation.handleNavbarScroll.
    rewrite !(throttle_frame themeDom); try done.
    + intros w'. unfold navigation.navbarScroll_body. by case_match.
    + intros w'. unfold animations.scan.
      apply (fold_left_frame themeDom). apply themeDom_reveal.
  - unfold utils.debounce. by destruct (resize_timeoutId (sched w)).
  - unfold navigation.handleSmoothScroll. repeat case_match; try done.
    by rewrite themeDom_closeMobileMenu.
  - apply themeDom_handleContactForm.
  - unfold accessibility.keydown. simpl.
    case_match; [apply themeDom_closeMobileMenu|done].
Qed.

Lemma theme_agrees_setTheme themeName w :
  theme_agrees (theme.setTheme themeName w).
Proof. unfold theme_agrees. simpl. apply lookup_insert_eq. Qed.

Lemma theme_agrees_op op w : theme_agrees (run_theme_op op w).
Proof. destruct op; apply theme_agrees_setTheme. Qed.

Lemma theme_agrees_step pb e w :
  theme_agrees w -> theme_agrees (step pb e w).
Proof.
  intros H.
  assert (Hother : e <> ToggleTheme -> theme_agrees (step pb e w)).
  { intros He. unfold theme_agrees. by rewrite themeDom_step. }
  destruct e; try (by apply Hother).
  apply theme_agrees_setTheme.
Qed.

Lemma theme_agrees_run pb es w :
  theme_agrees w -> theme_agrees (run pb es w).
Proof.
  revert w. induction es as [|e es IH]; intros w H; simpl; [done|].
  apply IH. by apply theme_agrees_step.
Qed.

End ThemeFacts.

(** C10.  After initialisation, [setTheme] or toggle, the entry stored under
    ["theme"] is the class name of the root element, and whatever the page
    does afterwards (every event of the page, timers included) the two stay
    equal. *)
Theorem theme_storage_matches_root (op : theme_op) (w : World) :
  localStorage (themeDom (run_theme_op op w)) !! "theme"
    = Some (root_className (themeDom (run_theme_op op w)))
  /\ forall progressBar es,
       theme_agrees (run progressBar es (run_theme_op op w)).
Proof.
  split; [apply theme_agrees_op|].
  intros pb es. apply theme_agrees_run, theme_agrees_op.
Qed.

(** C1, as the code has it.  When the class of the root element is neither
    ["light"] nor ["dark"], toggle treats it as non-dark and sets the
    preference to ["dark"]: ["dark"] is stored under ["theme"] and becomes the
    class of the root element. *)
Theorem toggle_unknown_theme_gives_dark (w : World) :
  root_className (themeDom w) <> "light" ->
  root_className (themeDom w) <> "dark" ->
  root_className (themeDom (theme.toggle w)) = "dark"
  /\ localStorage (themeDom (theme.toggle w)) !! "theme" = Some "dark".
Proof.
  intros _ Hd. unfold theme.toggle.
  destruct (String.eqb_spec (root_className (themeDom w)) "dark") as [E|_]; [done|].
  split; [reflexivity|]. simpl. apply lookup_insert_eq.
Qed.

Lemma toggle_unknown_theme_gives_dark_blue :
  root_className (themeDom (theme.init Sample.page_blue)) = "blue"
  /\ root_className (themeDom (theme.toggle (theme.init Sample.page_blue))) = "dark"
  /\ localStorage (themeDom (theme.toggle (theme.init Sample.page_blue))) !! "theme"
     = Some "dark".
Proof.
  split; [reflexivity|].
  apply (toggle_unknown_theme_gives_dark (theme.init Sample.page_blue));
    discriminate.
Defined.

(** C1 as stated fails: with ["blue"] stored, start-up applies ["blue"] and
    toggle then gives ["dark"], not ["light"]. *)
Lemma toggle_unknown_theme_not_light :
  root_className (themeDom (theme.init Sample.page_blue)) = "blue"
  /\ root_className (themeDom (theme.toggle (theme.init Sample.page_blue))) = "dark"
  /\ localStorage (themeDom (theme.toggle (theme.init Sample.page_blue))) !! "theme"
     = Some "dark"
  /\ "dark" <> "light".
Proof.
  split; [reflexivity|]. split; [reflexivity|].
  split; [|discriminate]. simpl. apply lookup_insert_eq.
Qed.

Example toggle_light_dark_light :
  root_className (themeDom (theme.toggle (theme.init Sample.page))) = "dark"
  /\ root_className
       (themeDom (theme.toggle (theme.toggle (theme.init Sample.page)))) = "light".
Proof. split; reflexivity. Qed.


(** ** Throttled handlers *)

Section ThrottleFacts.

Lemma throttle_runs {A} h (func : A -> World -> World) limit args w :
  inThrottle h w = false ->
  utils.throttle h func limit args w
  = setTimeout (ResetThrottle h) limit (set_inThrottle h true (func args w)).
Proof. intros H. unfold utils.throttle. by rewrite H. Qed.

Lemma throttle_skips {A} h (func : A -> World -> World) limit args w :
  inThrottle h w = true ->
  utils.throttle h func limit args w = w.
Proof. intros H. unfold utils.throttle. by rewrite H. Qed.

Lemma inThrottle_set h b w : inThrottle h (set_inThrottle h b w) = b.
Proof. by destruct h. Qed.

Lemma sched_reveal w el : sched (animations.reveal w el) = sched w.
Proof. unfold animations.reveal. destruct el. by repeat case_match. Qed.

Lemma sched_scan u w : sched (animations.scan u w) = sched w.
Proof. unfold animations.scan. apply (fold_left_frame sched), sched_reveal. Qed.

(** A timer that is alone with its identifier and not yet due does not run. *)
Lemma fire_not_due id w t :
  filter (fun t => timer_id t = id) (timers (sched w)) = [t] ->
  (clock (sched w) < due t)%N ->
  fire id w = w.
Proof.
  intros Hf Hlt. unfold fire. rewrite Hf.
  destruct (N.leb_spec (due t) (clock (sched w))); [lia|done].
Qed.

Lemma filter_fresh_timer (l : list timer) n t :
  Forall (fun t => timer_id t < n) l -> timer_id t = n ->
  filter (fun t => timer_id t = n) (l ++ [t]) = [t].
Proof.
  intros Hl Ht. rewrite filter_app.
  replace (filter (fun t => timer_id t = n) l) with (@nil timer).
  - simpl. rewrite filter_cons_True by done. done.
  - symmetry. induction Hl as [|x l Hx _ IH]; [done|].
    rewrite filter_cons_False by lia. exact IH.
Qed.

End ThrottleFacts.

(** C4, as the code has it.  The fade-in scan that runs on scroll is wrapped
    in a throttle of 50 ms: a call that finds the flag down runs the scan,
    raises the flag and arms one timer due 50 ms later whose callback
    lowers the flag; until that timer runs (and it does not run in less than
    50 ms) a call changes nothing. *)
Theorem animateOnScroll_throttled_50ms (w : World) :
  inThrottle AnimateOnScroll w = false ->
  timers_fresh w ->
  let w' := animations.animateOnScroll w in
  let id := next_timer (sched w) in
  inThrottle AnimateOnScroll w' = true
  /\ timers (sched w')
     = timers (sched w) ++
       [{| timer_id := id; due := (clock (sched w) + 50)%N;
           action := ResetThrottle AnimateOnScroll |}]
  /\ animations.animateOnScroll w' = w'
  /\ (forall dt, (dt < 50)%N ->
        fire id (elapse dt w') = elapse dt w'
        /\ animations.animateOnScroll (elapse dt w') = elapse dt w')
  /\ inThrottle AnimateOnScroll (fire id (elapse 50 w')) = false.
Proof.
  intros Hdown Hfresh w' id. subst w'. unfold animations.animateOnScroll.
  rewrite (throttle_runs _ _ _ _ _ Hdown).
  assert (Htimers :
    timers (sched (setTimeout (ResetThrottle AnimateOnScroll)
                     animations.animateOnScroll_limit
                     (set_inThrottle AnimateOnScroll true (animations.scan () w))))
    = timers (sched w) ++
      [{| timer_id := id; due := (clock (sched w) + 50)%N;
          action := ResetThrottle AnimateOnScroll |}]).
  { simpl. by rewrite sched_scan. }
  split; [reflexivity|]. split; [exact Htimers|].
  split; [by apply throttle_skips|].
  split.
  - intros dt Hdt. split.
    + eapply fire_not_due.
      * simpl. rewrite sched_scan. apply filter_fresh_timer; [exact Hfresh|done].
      * simpl. rewrite sched_scan. unfold animations.animateOnScroll_limit. lia.
    + by apply throttle_skips.
  - unfold fire.
    replace (timers (sched (elapse 50 _))) with
      (timers (sched w) ++
        [{| timer_id := id; due := (clock (sched w) + 50)%N;
            action := ResetThrottle AnimateOnScroll |}])
      by (simpl; by rewrite sched_scan).
    rewrite filter_fresh_timer; [|exact Hfresh|done].
    simpl. rewrite sched_scan.
    by rewrite (proj2 (N.leb_le _ _)) by lia.
Qed.

Lemma animateOnScroll_throttled_50ms_page :
  inThrottle AnimateOnScroll Sample.page = false
  /\ timers_fresh Sample.page
  /\ let w' := animations.animateOnScroll Sample.page in
     let id := next_timer (sched Sample.page) in
     inThrottle AnimateOnScroll w' = true
     /\ timers (sched w')
        = timers (sched Sample.page) ++
          [{| timer_id := id; due := (clock (sched Sample.page) + 50)%N;
              action := ResetThrottle AnimateOnScroll |}]
     /\ animations.animateOnScroll w' = w'
     /\ (forall dt, (dt < 50)%N ->
           fire id (elapse dt w') = elapse dt w'
           /\ animations.animateOnScroll (elapse dt w') = elapse dt w')
     /\ inThrottle AnimateOnScroll (fire id (elapse 50 w')) = false.
Proof.
  split; [reflexivity|]. split; [constructor|].
  apply (animateOnScroll_throttled_50ms Sample.page); [reflexivity|constructor].
Defined.

(** C4 as stated fails: the timer armed by the scan's throttle is due after
    50 ms, not 10.  Twenty milliseconds after a first tick the navbar and
    progress throttles (10 ms) have been released but the scan's has not, and a
    tick at that time does not scan: element 7, by then well inside the
    window, is not revealed.  Fifty milliseconds after, it is. *)
Lemma animateOnScroll_window_is_not_10ms :
  map due (timers (sched (animations.animateOnScroll Sample.page))) = [50%N]
  /\ animatedElements (state (run 9 two_ticks_20ms_apart Sample.page)) = ∅
  /\ inThrottle NavbarScroll
       (run 9 [Scroll; Reflow Sample.in_view; Elapse 20; Fire 0; Fire 1; Fire 2]
          Sample.page) = false
  /\ animatedElements (state (run 9 two_ticks_50ms_apart Sample.page)) = {[7]}.
Proof.
  split; [vm_compute; reflexivity|].
  split; [vm_compute; reflexivity|].
  split; vm_compute; reflexivity.
Qed.


(** ** The scroll progress bar *)

Lemma style_of_update_style e f w :
  style_of (update_style e f w) e = f (style_of w e).
Proof. unfold style_of, update_style. simpl. by rewrite lookup_insert_eq. Qed.

Lemma style_of_update_style_ne e e' f w :
  e <> e' -> style_of (update_style e f w) e' = style_of w e'.
Proof.
  intros H. unfold style_of, update_style. simpl. by rewrite lookup_insert_ne.
Qed.

(** C3.  A scroll-progress update that the throttle lets through assigns
    [scrollTop / (scrollHeight - viewportHeight) * 100] as the width percentage
    of the bar, whatever the divisor is: when the scroll height is at most
    the viewport height the divisor is zero or negative and the width is
    assigned all the same. *)
Theorem updateScrollProgress_unguarded (progressBar : elem) (w : World) :
  inThrottle UpdateScrollProgress w = false ->
  (scrollHeight (layout w) <= innerHeight (layout w))%Z ->
  (animations.documentHeight (layout w) <= 0)%Z
  /\ width (style_of (animations.updateScrollProgress progressBar w) progressBar)
     = WidthPercent
         (PrimFloat.mul
            (PrimFloat.div (scrollY (layout w))
               (float_of_Z (scrollHeight (layout w) - innerHeight (layout w))))
            (float_of_Z 100)).
Proof.
  intros Hdown Hshort. split.
  - unfold animations.documentHeight. lia.
  - unfold animations.updateScrollProgress.
    rewrite (throttle_runs _ _ _ _ _ Hdown).
    change (style_of (setTimeout ?cb ?l (set_inThrottle ?h ?b ?x)) ?e)
      with (style_of x e).
    unfold animations.progress_body. rewrite style_of_update_style.
    reflexivity.
Qed.

Lemma updateScrollProgress_unguarded_short_page :
  inThrottle UpdateScrollProgress short_page = false
  /\ (scrollHeight (layout short_page) <= innerHeight (layout short_page))%Z
  /\ (animations.documentHeight (layout short_page) <= 0)%Z
  /\ width (style_of (animations.updateScrollProgress 9 short_page) 9)
     = WidthPercent
         (PrimFloat.mul
            (PrimFloat.div (scrollY (layout short_page))
               (float_of_Z (scrollHeight (layout short_page)
                            - innerHeight (layout short_page))))
            (float_of_Z 100)).
Proof.
  split; [reflexivity|]. split; [vm_compute; discriminate|].
  apply (updateScrollProgress_unguarded 9 short_page);
    [reflexivity | vm_compute; discriminate].
Defined.

(** The divisor has no bearing on whether the width is assigned. *)
Lemma updateScrollProgress_assigns (progressBar : elem) (w : World) :
  inThrottle UpdateScrollProgress w = false ->
  width (style_of (animations.updateScrollProgress progressBar w) progressBar)
  = WidthPercent (animations.scrollPercentage (layout w)).
Proof.
  intros Hdown. unfold animations.updateScrollProgress.
  rewrite (throttle_runs _ _ _ _ _ Hdown).
  change (style_of (setTimeout ?cb ?l (set_inThrottle ?h ?b ?x)) ?e)
    with (style_of x e).
  unfold animations.progress_body. by rewrite style_of_update_style.
Qed.

(** Zero over zero: the percentage is not a number. *)
Example progress_on_short_page :
  PrimFloat.is_nan (animations.scrollPercentage (layout short_page)) = true.
Proof. reflexivity. Qed.

(** A positive offset over a negative divisor: a negative percentage. *)
Example progress_on_shorter_page :
  animations.scrollPercentage (layout shorter_page) = float_of_Z (-20).
Proof. reflexivity. Qed.

Example progress_half_way :
  animations.scrollPercentage
    {| scrollY := float_of_Z 800; innerHeight := 800; innerWidth := 400;
       scrollHeight := 2400; fadeIn := [] |} = float_of_Z 50.
Proof. reflexivity. Qed.


(** ** The contact form *)

Section FormFacts.

(** The four checks of [Spec.checks], tried in order. *)
Lemma first_failure_cases data :
  Spec.first_failure data =
  if negb (Spec.filled (name data)) then Some Spec.Name
  else if negb (Spec.filled (email data) && forms.isValidEmail (email data))
  then Some Spec.Email
  else if negb (Spec.filled (subject data)) then Some Spec.Subject
  else if negb (Spec.filled (message data)) then Some Spec.Message
  else None.
Proof.
  unfold Spec.first_failure, Spec.checks. simpl.
  by repeat case_match.
Qed.

(** [validateContactForm] reports the first failing check, shows its
    message and nothing else; with no failing check it shows nothing. *)
Lemma validateContactForm_first_failure data w :
  forms.validateContactForm data w =
  match Spec.first_failure data with
  | Some c => (false, forms.showMessage (Spec.message_of c) "error" w)
  | None => (true, w)
  end.
Proof.
  rewrite first_failure_cases. unfold forms.validateContactForm.
  rewrite !truthy_trim.
  destruct (Spec.filled (name data)); simpl; [|done].
  destruct (Spec.filled (email data)); simpl; [|done].
  destruct (forms.isValidEmail (email data)); simpl; [|done].
  destruct (Spec.filled (subject data)); simpl; [|done].
  by destruct (Spec.filled (message data)).
Qed.

Lemma handleContactForm_invalid w c :
  Spec.first_failure (fields (formDom w)) = Some c ->
  forms.handleContactForm w = forms.showMessage (Spec.message_of c) "error" w.
Proof.
  intros H. unfold forms.handleContactForm.
  by rewrite validateContactForm_first_failure, H.
Qed.

(** A valid form: no message, the button shows the sending label and is
    disabled, and [submitContactForm] has armed its timer. *)
Lemma handleContactForm_valid w :
  Spec.first_failure (fields (formDom w)) = None ->
  forms.handleContactForm w
  = forms.submitContactForm (fields (formDom w)) (button_innerHTML (formDom w))
      (forms.set_button forms.sending_label true w).
Proof.
  intros H. unfold forms.handleContactForm.
  by rewrite validateContactForm_first_failure, H.
Qed.

Lemma timers_showMessage m t w :
  timers (sched (forms.showMessage m t w))
  = timers (sched w) ++
    [{| timer_id := next_timer (sched w); due := (clock (sched w) + 5000)%N;
        action := RemoveMessage (next_elem (formDom w)) |}].
Proof. reflexivity. Qed.

End FormFacts.

(** C2.  Validation tries, in this order, the name (filled in), the email
    (filled in and matching the pattern), the subject and the message
    (filled in), a field counting as filled in when it holds something
    besides white space.  When a check fails, the first such check decides:
    [validateContactForm] returns false having shown that check's message
    and no other (one node created, one removal timer armed), and
    [handleContactForm] does that and nothing more: the button is left as
    it was and [submitContactForm] is not called (no submission timer is
    armed). *)
Theorem validation_stops_at_first_failure (w : World) (c : Spec.concern) :
  Spec.first_failure (fields (formDom w)) = Some c ->
  let w' := forms.handleContactForm w in
  forms.validateContactForm (fields (formDom w)) w
    = (false, forms.showMessage (Spec.message_of c) "error" w)
  /\ w' = forms.showMessage (Spec.message_of c) "error" w
  /\ next_elem (formDom w') = S (next_elem (formDom w))
  /\ timers (sched w')
     = timers (sched w) ++
       [{| timer_id := next_timer (sched w); due := (clock (sched w) + 5000)%N;
           action := RemoveMessage (next_elem (formDom w)) |}]
  /\ filter is_submit_timer (timers (sched w'))
     = filter is_submit_timer (timers (sched w))
  /\ button_innerHTML (formDom w') = button_innerHTML (formDom w)
  /\ button_disabled (formDom w') = button_disabled (formDom w).
Proof.
  intros H w'. subst w'. rewrite (handleContactForm_invalid w c H).
  split; [by rewrite validateContactForm_first_failure, H|].
  split; [reflexivity|]. split; [reflexivity|].
  split; [apply timers_showMessage|].
  split; [|split; reflexivity].
  rewrite timers_showMessage, filter_app.
  rewrite filter_cons_False by (simpl; auto). simpl. apply app_nil_r.
Qed.

Lemma validation_stops_at_first_failure_no_subject :
  Spec.first_failure (fields (formDom page_no_subject)) = Some Spec.Subject
  /\ let w' := forms.handleContactForm page_no_subject in
     forms.validateContactForm (fields (formDom page_no_subject)) page_no_subject
       = (false, forms.showMessage "Please enter a subject." "error" page_no_subject)
     /\ w' = forms.showMessage "Please enter a subject." "error" page_no_subject
     /\ next_elem (formDom w') = S (next_elem (formDom page_no_subject))
     /\ timers (sched w')
        = timers (sched page_no_subject) ++
          [{| timer_id := next_timer (sched page_no_subject);
              due := (clock (sched page_no_subject) + 5000)%N;
              action := RemoveMessage (next_elem (formDom page_no_subject)) |}]
     /\ filter is_submit_timer (timers (sched w'))
        = filter is_submit_timer (timers (sched page_no_subject))
     /\ button_innerHTML (formDom w') = button_innerHTML (formDom page_no_subject)
     /\ button_disabled (formDom w') = button_disabled (formDom page_no_subject).
Proof.
  split; [reflexivity|].
  apply (validation_stops_at_first_failure page_no_subject Spec.Subject).
  reflexivity.
Defined.

(** Each field left blank in an otherwise valid form gives its own message. *)
Example blank_name_message :
  Spec.first_failure
    {| name := []; email := JsString.of_string "a@b.co";
       subject := JsString.of_string "Hello";
       message := JsString.of_string "A few words." |} = Some Spec.Name.
Proof. reflexivity. Qed.

Example blank_email_message :
  Spec.first_failure
    {| name := JsString.of_string "Ada"; email := [];
       subject := JsString.of_string "Hello";
       message := JsString.of_string "A few words." |} = Some Spec.Email.
Proof. reflexivity. Qed.

Example blank_message_message :
  Spec.first_failure
    {| name := JsString.of_string "Ada"; email := JsString.of_string "a@b.co";
       subject := JsString.of_string "Hello";
       message := [] |} = Some Spec.Message.
Proof. reflexivity. Qed.

(** With every field blank only the first check speaks. *)
Example blank_form_message :
  Spec.first_failure Sample.blank_form = Some Spec.Name.
Proof. reflexivity. Qed.

(** A valid form is submitted: the submission timer is armed, and when it
    runs the success message is shown and the fields are reset. *)
Example valid_form_is_submitted :
  map action (timers (sched (forms.handleContactForm page_filled)))
    = [SubmitDone Sample.filled_form "Send Message"]
  /\ button_disabled (formDom (forms.handleContactForm page_filled)) = true
  /\ fields (formDom (run 9 [Submit; Elapse 2000; Fire 0] page_filled))
     = Sample.blank_form
  /\ button_innerHTML (formDom (run 9 [Submit; Elapse 2000; Fire 0] page_filled))
     = "Send Message".
Proof. repeat split; reflexivity. Qed.


(** ** The message node *)

Section DomFacts.

(** Induction on document trees: a property of the children gives the
    property of the node. *)
Lemma node_ind (P : node -> Prop) :
  (forall i c t kids, Forall P kids -> P (Node i c t kids)) ->
  forall n, P n.
Proof.
  intros H. fix IH 1. intros [i c t kids]. apply H.
  induction kids as [|k kids IHk]; constructor; [apply IH|exact IHk].
Qed.

Lemma remove_node_unfold i j c t kids :
  Dom.remove_node i (Node j c t kids) = Node j c t (Dom.remove i kids).
Proof.
  simpl. f_equal. induction kids as [|k kids IH]; simpl; [done|].
  by rewrite IH.
Qed.

Lemma ids_node_unfold j c t kids :
  Dom.ids_node (Node j c t kids) = j :: Dom.ids kids.
Proof. reflexivity. Qed.

Lemma children_in_unfold i j c t kids :
  Dom.children_in i (Node j c t kids)
  = if Nat.eqb j i then Some kids else Dom.children_of i kids.
Proof.
  simpl. destruct (Nat.eqb j i); [done|].
  induction kids as [|k kids IH]; simpl; [done|].
  by rewrite IH.
Qed.

Lemma prepend_node_unfold p new j c t kids :
  Dom.prepend_node p new (Node j c t kids)
  = if Nat.eqb j p then Node j c t (new :: kids)
    else Node j c t (Dom.prepend p new kids).
Proof.
  simpl. destruct (Nat.eqb j p); [done|]. f_equal.
  induction kids as [|k kids IH]; simpl; [done|].
  by rewrite IH.
Qed.

Lemma remove_forest_gone i d :
  Forall (fun n => node_id n <> i -> i ∉ Dom.ids_node (Dom.remove_node i n)) d ->
  i ∉ Dom.ids (Dom.remove i d).
Proof.
  induction 1 as [|k d Hk _ IH]; simpl; [apply not_elem_of_nil|].
  destruct (Nat.eqb_spec (node_id k) i) as [E|E]; [exact IH|].
  simpl. rewrite elem_of_app. intros [Hin|Hin]; [by apply Hk|by apply IH].
Qed.

Lemma remove_node_gone i n :
  node_id n <> i -> i ∉ Dom.ids_node (Dom.remove_node i n).
Proof.
  induction n as [j c t kids IH] using node_ind. simpl node_id. intros Hne.
  rewrite remove_node_unfold, ids_node_unfold.
  apply not_elem_of_cons. split; [done|].
  by apply remove_forest_gone.
Qed.

(** A removed node is nowhere in the tree. *)
Lemma remove_gone i d : i ∉ Dom.ids (Dom.remove i d).
Proof.
  apply remove_forest_gone, Forall_forall. intros n _. apply remove_node_gone.
Qed.

Lemma children_prepend_forest p new d :
  Forall (fun n => Dom.children_in p (Dom.prepend_node p new n)
                   = cons new <$> Dom.children_in p n) d ->
  Dom.children_of p (Dom.prepend p new d) = cons new <$> Dom.children_of p d.
Proof.
  induction 1 as [|k d Hk _ IH]; simpl; [done|].
  rewrite Hk. destruct (Dom.children_in p k); simpl; [done|exact IH].
Qed.

Lemma children_prepend_node p new n :
  Dom.children_in p (Dom.prepend_node p new n) = cons new <$> Dom.children_in p n.
Proof.
  induction n as [j c t kids IH] using node_ind.
  rewrite prepend_node_unfold, children_in_unfold.
  destruct (Nat.eqb_spec j p) as [E|E].
  - rewrite children_in_unfold. by rewrite (proj2 (Nat.eqb_eq j p) E).
  - rewrite children_in_unfold. rewrite (proj2 (Nat.eqb_neq j p) E).
    by apply children_prepend_forest.
Qed.

(** After [insertBefore(new, parent.firstChild)] the parent's children are
    the new node followed by the former children. *)
Lemma children_prepend p new d :
  Dom.children_of p (Dom.prepend p new d) = cons new <$> Dom.children_of p d.
Proof.
  apply children_prepend_forest, Forall_forall. intros n _.
  apply children_prepend_node.
Qed.

Lemma ids_prepend_forest p new d x :
  Forall (fun n => x ∈ Dom.ids_node (Dom.prepend_node p new n) ->
                   x ∈ Dom.ids_node new \/ x ∈ Dom.ids_node n) d ->
  x ∈ Dom.ids (Dom.prepend p new d) ->
  x ∈ Dom.ids_node new \/ x ∈ Dom.ids d.
Proof.
  induction 1 as [|k d Hk _ IH]; simpl; [by right|].
  rewrite !elem_of_app. intros [Hin|Hin].
  - destruct (Hk Hin); auto.
  - destruct (IH Hin); auto.
Qed.

Lemma ids_prepend_node p new n x :
  x ∈ Dom.ids_node (Dom.prepend_node p new n) ->
  x ∈ Dom.ids_node new \/ x ∈ Dom.ids_node n.
Proof.
  induction n as [j c t kids IH] using node_ind.
  rewrite prepend_node_unfold.
  destruct (Nat.eqb j p); rewrite !ids_node_unfold.
  - simpl. rewrite !elem_of_cons, elem_of_app. tauto.
  - rewrite !elem_of_cons. intros [->|Hin]; [auto|].
    destruct (ids_prepend_forest p new kids x IH Hin); auto.
Qed.

(** Inserting a node brings no handle into the tree but its own. *)
Lemma ids_prepend p new d x :
  x ∈ Dom.ids (Dom.prepend p new d) ->
  x ∈ Dom.ids_node new \/ x ∈ Dom.ids d.
Proof.
  apply ids_prepend_forest, Forall_forall. intros n _. apply ids_prepend_node.
Qed.

(** Whatever its [type], the new node carries the [form-message] class. *)
Lemma message_has_class type :
  Dom.has_class "form-message" (forms.message_className type) = true.
Proof.
  unfold forms.message_className.
  destruct (String.eqb type "success"); [reflexivity|].
  destruct (String.eqb type "error"); reflexivity.
Qed.

End DomFacts.


(** What [showMessage] does as it is written, on every call with the form
    in the document: the prior message node (the first element of class
    [form-message] that [document.querySelector] finds) is removed first;
    the new node, styled for its type and carrying the message, is put
    inside the form, as its first child, ahead of the form's former
    children; and a timer is armed for 5000 ms later whose callback removes
    the new node from the document.  The removal and the timer are what the
    source's comments announce; the placement is not (see below). *)
Theorem showMessage_replaces_and_prepends
    (message type : string) (w : World) (kids : list node) :
  Dom.children_of (contactForm (formDom w))
    (forms.without_existing (body (formDom w))) = Some kids ->
  let w' := forms.showMessage message type w in
  let messageDiv := next_elem (formDom w) in
  (forall existingMessage,
      Dom.querySelector "form-message" (body (formDom w)) = Some existingMessage ->
      (existingMessage ∉ Dom.ids (forms.without_existing (body (formDom w))))
      /\ (existingMessage <> messageDiv ->
          existingMessage ∉ Dom.ids (body (formDom w'))))
  /\ form_children w'
     = Some (Node messageDiv (forms.message_className type) message [] :: kids)
  /\ Dom.has_class "form-message" (forms.message_className type) = true
  /\ timers (sched w')
     = timers (sched w) ++
       [{| timer_id := next_timer (sched w); due := (clock (sched w) + 5000)%N;
           action := RemoveMessage messageDiv |}]
  /\ messageDiv ∉ Dom.ids (body (formDom (run_callback (RemoveMessage messageDiv) w'))).
Proof.
  intros Hform w' messageDiv. subst w' messageDiv.
  split; [|split; [|split; [|split]]].
  - intros old Hq.
    assert (Hgone : old ∉ Dom.ids (forms.without_existing (body (formDom w)))).
    { unfold forms.without_existing. rewrite Hq. apply remove_gone. }
    split; [exact Hgone|].
    intros Hne Hin. simpl in Hin.
    apply ids_prepend in Hin as [Hin|Hin]; [|by apply Hgone].
    rewrite ids_node_unfold in Hin. simpl in Hin.
    apply list_elem_of_singleton in Hin. by apply Hne.
  - unfold form_children. simpl.
    by rewrite children_prepend, Hform.
  - apply message_has_class.
  - apply timers_showMessage.
  - simpl. apply remove_gone.
Qed.

Lemma showMessage_replaces_and_prepends_page :
  Dom.children_of (contactForm (formDom page_with_message))
    (forms.without_existing (body (formDom page_with_message)))
    = Some [Node 4 "field" "" []]
  /\ let w' := forms.showMessage "Please enter a subject." "error" page_with_message in
     let messageDiv := next_elem (formDom page_with_message) in
     (forall existingMessage,
         Dom.querySelector "form-message" (body (formDom page_with_message))
           = Some existingMessage ->
         (existingMessage
            ∉ Dom.ids (forms.without_existing (body (formDom page_with_message))))
         /\ (existingMessage <> messageDiv ->
             existingMessage ∉ Dom.ids (body (formDom w'))))
     /\ form_children w'
        = Some [Node messageDiv (forms.message_className "error")
                  "Please enter a subject." [];
                Node 4 "field" "" []]
     /\ Dom.has_class "form-message" (forms.message_className "error") = true
     /\ timers (sched w')
        = timers (sched page_with_message) ++
          [{| timer_id := next_timer (sched page_with_message);
              due := (clock (sched page_with_message) + 5000)%N;
              action := RemoveMessage messageDiv |}]
     /\ messageDiv
          ∉ Dom.ids (body (formDom (run_callback (RemoveMessage messageDiv) w'))).
Proof.
  split; [reflexivity|].
  apply (showMessage_replaces_and_prepends "Please enter a subject." "error"
           page_with_message [Node 4 "field" "" []]).
  reflexivity.
Defined.

(** C5.  The source announces [// Insert message before form]; the call
    under that comment, [contactForm.insertBefore(messageDiv,
    contactForm.firstChild)], takes the form as the parent and so puts the
    node inside it.  On the sample page the form (3) is the second child of
    the section (1); after [showMessage] the section still has its two
    children, the heading and the form, no new node precedes the form among
    them, and the new node (10) is inside the form, as its first child. *)
Lemma showMessage_inserts_inside_the_form :
  let w' := forms.showMessage "Please enter your name." "error" Sample.page in
  Dom.children_of 1 (body (formDom w'))
  = Some [Node 2 "title" "Contact" [];
          Node 3 "space-y-6" ""
            [Node 10 (forms.message_className "error") "Please enter your name." [];
             Node 4 "field" "" []]]
  /\ before_form 3
       [Node 2 "title" "Contact" [];
        Node 3 "space-y-6" ""
          [Node 10 (forms.message_className "error") "Please enter your name." [];
           Node 4 "field" "" []]]
     = [Node 2 "title" "Contact" []]
  /\ 10 ∉ map node_id [Node 2 "title" "Contact" []].
Proof.
  split; [reflexivity|]. split; [reflexivity|].
  simpl. intros Hin. apply list_elem_of_singleton in Hin. discriminate.
Qed.

(** A second message takes the place of the first. *)
Example second_message_replaces_first :
  Dom.querySelector "form-message" (body (formDom page_with_message)) = Some 10
  /\ form_children
       (forms.showMessage "Please enter a subject." "error" page_with_message)
     = Some [Node 11 (forms.message_className "error") "Please enter a subject." [];
             Node 4 "field" "" []].
Proof. split; reflexivity. Qed.

(** The removal timer of a message that has been replaced finds nothing to
    remove. *)
Example stale_timer_is_harmless :
  let w := forms.showMessage "Please enter a subject." "error" page_with_message in
  body (formDom (run 9 [Elapse 5000; Fire 0] w)) = body (formDom w).
Proof. reflexivity. Qed.

Example message_gone_after_5s :
  form_children (run 9 [Elapse 5000; Fire 0] page_with_message)
  = Some [Node 4 "field" "" []]
  /\ fire 0 (elapse 4999 page_with_message) = elapse 4999 page_with_message.
Proof. split; reflexivity. Qed.


(** ** The fade-in animation *)

Section AnimationFacts.

Lemma revealed_view w w' :
  animation_view w' = animation_view w -> revealed w -> revealed w'.
Proof.
  unfold animation_view, revealed, style_of. intros [= HA HS] H e.
  rewrite HA, HS. apply H.
Qed.

Lemma view_closeMobileMenu w :
  animation_view (navigation.closeMobileMenu w) = animation_view w.
Proof. unfold navigation.closeMobileMenu. by destruct (isMenuOpen (state w)). Qed.

Lemma view_handleContactForm w :
  animation_view (forms.handleContactForm w) = animation_view w.
Proof.
  unfold forms.handleContactForm, forms.validateContactForm.
  by repeat case_match; simplify_eq.
Qed.

Lemma view_run_callback cb w :
  animation_view (run_callback cb w) = animation_view w.
Proof.
  destruct cb; simpl; try done.
  unfold init.resize_check. case_match; [apply view_closeMobileMenu|done].
Qed.

Lemma view_fire id w : animation_view (fire id w) = animation_view w.
Proof.
  unfold fire. repeat case_match; try done.
  by rewrite view_run_callback.
Qed.

Lemma view_handleNavbarScroll w :
  animation_view (navigation.handleNavbarScroll w) = animation_view w.
Proof.
  unfold navigation.handleNavbarScroll.
  apply (throttle_frame animation_view); [done|].
  intros w'. unfold navigation.navbarScroll_body. by case_match.
Qed.

(** Changing a style without touching its opacity keeps the invariant and
    the set. *)
Lemma animated_update_style e f w :
  animatedElements (state (update_style e f w)) = animatedElements (state w).
Proof. reflexivity. Qed.

Lemma opacity_update_style e f w e' :
  (forall st, opacity (f st) = opacity st) ->
  opacity (style_of (update_style e f w) e') = opacity (style_of w e').
Proof.
  intros Hf. destruct (decide (e = e')) as [->|Hne].
  - by rewrite style_of_update_style, Hf.
  - by rewrite style_of_update_style_ne.
Qed.

Lemma revealed_update_style e f w :
  (forall st, opacity (f st) = opacity st) ->
  revealed w -> revealed (update_style e f w).
Proof.
  intros Hf H e' Hin. rewrite opacity_update_style by done. by apply H.
Qed.

Lemma revealed_with_sched f w : revealed w -> revealed (with_sched f w).
Proof. by apply revealed_view. Qed.

Lemma animated_reveal w el :
  animatedElements (state w) ⊆ animatedElements (state (animations.reveal w el)).
Proof.
  unfold animations.reveal. destruct el as [element top].
  repeat case_match; simpl; set_solver.
Qed.

Lemma layout_reveal w el : layout (animations.reveal w el) = layout w.
Proof. unfold animations.reveal. destruct el. by repeat case_match. Qed.

(** An element already in the set is passed over: nothing is written. *)
Lemma reveal_animated w element top :
  element ∈ animatedElements (state w) ->
  animations.reveal w (element, top) = w.
Proof.
  intros Hin. unfold animations.reveal.
  by rewrite (bool_decide_eq_true_2 _ Hin).
Qed.

(** An element above the threshold is in the set once it has been looked
    at. *)
Lemma reveal_above w element top :
  above_threshold (layout w) top = true ->
  element ∈ animatedElements (state (animations.reveal w (element, top))).
Proof.
  unfold above_threshold. intros Hab. unfold animations.reveal.
  case_bool_decide as Hin; [done|].
  rewrite Hab. simpl. set_solver.
Qed.

(** Looking at one element leaves the style of the animated ones alone. *)
Lemma reveal_keeps_style w el e :
  e ∈ animatedElements (state w) ->
  style_of (animations.reveal w el) e = style_of w e.
Proof.
  intros Hin. unfold animations.reveal. destruct el as [element top].
  case_bool_decide as Hel; [done|].
  case_match; [|done].
  change (style_of (with_state ?f ?x) e) with (style_of x e).
  apply style_of_update_style_ne. intros ->. by apply Hel.
Qed.

Lemma revealed_reveal w el : revealed w -> revealed (animations.reveal w el).
Proof.
  intros H. unfold animations.reveal. destruct el as [element top].
  case_bool_decide as Hel; [done|].
  case_match; [|done].
  intros e Hin.
  change (style_of (with_state ?f ?x) e) with (style_of x e).
  destruct (decide (element = e)) as [->|Hne].
  - by rewrite style_of_update_style.
  - rewrite style_of_update_style_ne by done. apply H.
    simpl in Hin. apply elem_of_union in Hin as [Hs|Ha]; [|exact Ha].
    apply elem_of_singleton in Hs. congruence.
Qed.

Lemma animated_fold l w :
  animatedElements (state w)
    ⊆ animatedElements (state (fold_left animations.reveal l w)).
Proof.
  revert w. induction l as [|el l IH]; intros w; simpl; [done|].
  etrans; [apply animated_reveal|apply IH].
Qed.

Lemma layout_fold l w : layout (fold_left animations.reveal l w) = layout w.
Proof. apply (fold_left_frame layout), layout_reveal. Qed.

Lemma revealed_fold l w :
  revealed w -> revealed (fold_left animations.reveal l w).
Proof.
  revert w. induction l as [|el l IH]; intros w H; simpl; [done|].
  by apply IH, revealed_reveal.
Qed.

Lemma fold_keeps_style l w e :
  e ∈ animatedElements (state w) ->
  style_of (fold_left animations.reveal l w) e = style_of w e.
Proof.
  revert w. induction l as [|el l IH]; intros w Hin; simpl; [done|].
  rewrite IH; [by apply reveal_keeps_style|].
  by apply animated_reveal.
Qed.

Lemma fold_reveals l w element top :
  (element, top) ∈ l ->
  above_threshold (layout w) top = true ->
  element ∈ animatedElements (state (fold_left animations.reveal l w)).
Proof.
  revert w. induction l as [|el l IH]; intros w Hin Hab; [by inversion Hin|].
  simpl. apply elem_of_cons in Hin as [<-|Hrest].
  - apply animated_fold. by apply reveal_above.
  - apply IH; [done|]. by rewrite layout_reveal.
Qed.

(** The throttled scan, as the un-throttled one, only adds to the set. *)
Lemma animated_animateOnScroll w :
  animatedElements (state w)
    ⊆ animatedElements (state (animations.animateOnScroll w)).
Proof.
  unfold animations.animateOnScroll, utils.throttle.
  destruct (inThrottle AnimateOnScroll w); [done|].
  simpl. apply animated_fold.
Qed.

Lemma revealed_animateOnScroll w :
  revealed w -> revealed (animations.animateOnScroll w).
Proof.
  intros H. unfold animations.animateOnScroll, utils.throttle.
  destruct (inThrottle AnimateOnScroll w); [done|].
  unfold setTimeout, set_inThrottle.
  do 2 apply revealed_with_sched. by apply revealed_fold.
Qed.

Lemma animated_updateScrollProgress pb w :
  animatedElements (state (animations.updateScrollProgress pb w))
  = animatedElements (state w).
Proof.
  unfold animations.updateScrollProgress, utils.throttle.
  by destruct (inThrottle UpdateScrollProgress w).
Qed.

Lemma revealed_updateScrollProgress pb w :
  revealed w -> revealed (animations.updateScrollProgress pb w).
Proof.
  intros H. unfold animations.updateScrollProgress, utils.throttle.
  destruct (inThrottle UpdateScrollProgress w); [done|].
  unfold setTimeout, set_inThrottle.
  do 2 apply revealed_with_sched.
  by apply revealed_update_style.
Qed.

(** No event takes an element out of the set. *)
Lemma animated_step pb e w :
  animatedElements (state w) ⊆ animatedElements (state (step pb e w)).
Proof.
  assert (Hview : forall w', animation_view w' = animation_view w ->
            animatedElements (state w) ⊆ animatedElements (state w')).
  { intros w' [= -> _]. done. }
  destruct e; simpl; try (by apply Hview).
  - apply Hview, view_fire.
  - rewrite animated_updateScrollProgress.
    etrans; [|apply animated_animateOnScroll].
    apply Hview, view_handleNavbarScroll.
  - apply Hview. unfold utils.debounce. by destruct (resize_timeoutId (sched w)).
  - apply Hview. unfold navigation.handleSmoothScroll.
    repeat case_match; try done. by rewrite view_closeMobileMenu.
  - apply Hview, view_handleContactForm.
  - apply Hview. unfold accessibility.keydown.
    case_match; [|done].
    change (animation_view (accessibility.set_body_classList ?f ?x))
      with (animation_view x).
    apply view_closeMobileMenu.
Qed.

Lemma animated_run pb es w :
  animatedElements (state w) ⊆ animatedElements (state (run pb es w)).
Proof.
  revert w. induction es as [|e es IH]; intros w; simpl; [done|].
  etrans; [apply animated_step|apply IH].
Qed.

Lemma revealed_step pb e w : revealed w -> revealed (step pb e w).
Proof.
  intros H.
  assert (Hview : forall w', animation_view w' = animation_view w -> revealed w').
  { intros w' Hv. by apply (revealed_view w). }
  destruct e; simpl; try (by apply Hview);
    try (by apply revealed_update_style).
  - apply Hview, view_fire.
  - apply revealed_updateScrollProgress, revealed_animateOnScroll.
    apply (revealed_view w); [apply view_handleNavbarScroll|done].
  - apply Hview. unfold utils.debounce. by destruct (resize_timeoutId (sched w)).
  - apply Hview. unfold navigation.handleSmoothScroll.
    repeat case_match; try done. by rewrite view_closeMobileMenu.
  - apply Hview, view_handleContactForm.
  - apply Hview. unfold accessibility.keydown.
    case_match; [|done].
    change (animation_view (accessibility.set_body_classList ?f ?x))
      with (animation_view x).
    apply view_closeMobileMenu.
Qed.

Lemma revealed_run pb es w : revealed w -> revealed (run pb es w).
Proof.
  revert w. induction es as [|e es IH]; intros w H; simpl; [done|].
  by apply IH, revealed_step.
Qed.

End AnimationFacts.


(** C6.  From page load (the set of animated elements empty) and through
    any sequence of events: no event takes an element out of the set; a scan
    that runs while an element with the fade-in marker has its top above 80%
    of the window height leaves that element in the set with opacity 1; and
    an element in the set is never written again, so it is revealed once,
    however many scroll ticks follow: a scan passes over it, leaves its style
    as it is, and it stays in the set and opaque for good. *)
Theorem animatedElements_only_grows
    (progressBar : elem) (w0 : World) (es : list event) :
  animatedElements (state w0) = ∅ ->
  let w := run progressBar es w0 in
  (forall e, animatedElements (state w)
               ⊆ animatedElements (state (step progressBar e w)))
  /\ (forall es', animatedElements (state w)
                    ⊆ animatedElements (state (run progressBar es' w)))
  /\ (forall element top,
        (element, top) ∈ fadeIn (layout w) ->
        above_threshold (layout w) top = true ->
        inThrottle AnimateOnScroll w = false ->
        element ∈ animatedElements (state (animations.animateOnScroll w))
        /\ opacity (style_of (animations.animateOnScroll w) element) = "1")
  /\ (forall element top,
        element ∈ animatedElements (state w) ->
        animations.reveal w (element, top) = w
        /\ style_of (animations.animateOnScroll w) element = style_of w element)
  /\ (forall element es',
        element ∈ animatedElements (state w) ->
        element ∈ animatedElements (state (run progressBar es' w))
        /\ opacity (style_of (run progressBar es' w) element) = "1").
Proof.
  intros Hload w.
  assert (Hrev : revealed w).
  { apply revealed_run. intros e He. rewrite Hload in He. set_solver. }
  split; [intros e; apply animated_step|].
  split; [intros es'; apply animated_run|].
  split; [|split].
  - intros element top Hin Hab Hdown.
    assert (Hset : element ∈ animatedElements (state (animations.animateOnScroll w))).
    { unfold animations.animateOnScroll.
      rewrite (throttle_runs _ _ _ _ _ Hdown). simpl.
      by apply (fold_reveals _ _ _ top). }
    split; [exact Hset|].
    by apply revealed_animateOnScroll.
  - intros element top Hin. split; [by apply reveal_animated|].
    unfold animations.animateOnScroll, utils.throttle.
    destruct (inThrottle AnimateOnScroll w); [done|].
    change (style_of (setTimeout ?cb ?l (set_inThrottle ?h ?b ?x)) ?e)
      with (style_of x e).
    by apply fold_keeps_style.
  - intros element es' Hin.
    assert (Hstay : element ∈ animatedElements (state (run progressBar es' w))).
    { by apply animated_run. }
    split; [exact Hstay|].
    by apply (revealed_run progressBar es' w Hrev).
Qed.

Lemma animatedElements_only_grows_page :
  animatedElements (state Sample.page) = ∅
  /\ let w := run 9 two_ticks_50ms_apart Sample.page in
     (forall e, animatedElements (state w)
                  ⊆ animatedElements (state (step 9 e w)))
     /\ (forall es', animatedElements (state w)
                       ⊆ animatedElements (state (run 9 es' w)))
     /\ (forall element top,
           (element, top) ∈ fadeIn (layout w) ->
           above_threshold (layout w) top = true ->
           inThrottle AnimateOnScroll w = false ->
           element ∈ animatedElements (state (animations.animateOnScroll w))
           /\ opacity (style_of (animations.animateOnScroll w) element) = "1")
     /\ (forall element top,
           element ∈ animatedElements (state w) ->
           animations.reveal w (element, top) = w
           /\ style_of (animations.animateOnScroll w) element = style_of w element)
     /\ (forall element es',
           element ∈ animatedElements (state w) ->
           element ∈ animatedElements (state (run 9 es' w))
           /\ opacity (style_of (run 9 es' w) element) = "1").
Proof.
  split; [reflexivity|].
  apply (animatedElements_only_grows 9 Sample.page two_ticks_50ms_apart).
  reflexivity.
Defined.

(** The element of the sample page is below the threshold at load and is
    not revealed by the first scan; once scrolled into view it is revealed
    by the next scan that runs, and further ticks change nothing for it. *)
Example fade_in_on_sample_page :
  animatedElements (state (snd (init.all Sample.page))) = ∅
  /\ animatedElements (state (run 9 two_ticks_50ms_apart Sample.page)) = {[7]}
  /\ style_of (run 9 two_ticks_50ms_apart Sample.page) 7
     = {| opacity := "1"; transform := "translateY(0)"; boxShadow := "";
          width := WidthUnset |}
  /\ style_of
       (run 9 (two_ticks_50ms_apart ++ [Elapse 50; Fire 4; Scroll])
          Sample.page) 7
     = style_of (run 9 two_ticks_50ms_apart Sample.page) 7.
Proof.
  split; [vm_compute; reflexivity|].
  split; [vm_compute; reflexivity|].
  split; vm_compute; reflexivity.
Qed.


(** ** Timer identifiers *)

(** Freshness of the timer identifiers is an invariant of the page. *)

Section TimerFacts.

Lemma fresh_view w w' :
  timer_view w' = timer_view w -> timers_fresh w -> timers_fresh w'.
Proof. unfold timer_view, timers_fresh. by intros [= -> ->]. Qed.

Lemma fresh_setTimeout cb delay w :
  timers_fresh w -> timers_fresh (setTimeout cb delay w).
Proof.
  unfold timers_fresh. simpl. intros H. apply Forall_app. split.
  - eapply Forall_impl; [exact H|]. simpl. intros t Ht. lia.
  - repeat constructor.
Qed.

Lemma fresh_clearTimeout id w :
  timers_fresh w -> timers_fresh (clearTimeout id w).
Proof.
  destruct id as [i|]; [|done]. unfold timers_fresh. simpl.
  rewrite !Forall_forall. intros H t [_ Ht]%list_elem_of_filter. by apply H.
Qed.

Lemma fresh_throttle {A} h (func : A -> World -> World) limit args w :
  (forall w, timer_view (func args w) = timer_view w) ->
  timers_fresh w -> timers_fresh (utils.throttle h func limit args w).
Proof.
  intros Hf H. unfold utils.throttle. destruct (inThrottle h w); [done|].
  apply fresh_setTimeout.
  apply (fresh_view (func args w)); [done|].
  by apply (fresh_view w).
Qed.

Lemma fresh_showMessage m t w :
  timers_fresh w -> timers_fresh (forms.showMessage m t w).
Proof.
  intros H. unfold forms.showMessage. apply fresh_setTimeout.
  by apply (fresh_view w).
Qed.

Lemma timer_view_closeMobileMenu w :
  timer_view (navigation.closeMobileMenu w) = timer_view w.
Proof. unfold navigation.closeMobileMenu. by destruct (isMenuOpen (state w)). Qed.

Lemma fresh_handleContactForm w :
  timers_fresh w -> timers_fresh (forms.handleContactForm w).
Proof.
  intros H. unfold forms.handleContactForm.
  rewrite validateContactForm_first_failure.
  destruct (Spec.first_failure (fields (formDom w))); simpl.
  - by apply fresh_showMessage.
  - unfold forms.submitContactForm. apply fresh_setTimeout.
    by apply (fresh_view w).
Qed.

Lemma fresh_run_callback cb w :
  timers_fresh w -> timers_fresh (run_callback cb w).
Proof.
  intros H. destruct cb; simpl.
  - by apply (fresh_view w).
  - by apply (fresh_view w).
  - unfold forms.submit_done.
    eapply fresh_view; [|apply fresh_showMessage; apply (fresh_view w); [|exact H]];
      done.
  - unfold init.resize_check.
    case_match; [|done].
    by apply (fresh_view w); [apply timer_view_closeMobileMenu|].
Qed.

Lemma fresh_fire id w : timers_fresh w -> timers_fresh (fire id w).
Proof.
  intros H. unfold fire. repeat case_match; try done.
  by apply fresh_run_callback, fresh_clearTimeout.
Qed.

Lemma timer_view_reveal w el :
  timer_view (animations.reveal w el) = timer_view w.
Proof. unfold timer_view. by rewrite sched_reveal. Qed.

Lemma fresh_step pb e w : timers_fresh w -> timers_fresh (step pb e w).
Proof.
  intros H.
  assert (Hview : forall w', timer_view w' = timer_view w -> timers_fresh w').
  { intros w' Hv. by apply (fresh_view w). }
  destruct e; simpl; try (by apply Hview).
  - by apply fresh_fire.
  - apply fresh_throttle; [done|].
    apply fresh_throttle.
    { intros w'. unfold animations.scan.
      apply (fold_left_frame timer_view), timer_view_reveal. }
    apply fresh_throttle; [|done].
    intros w'. unfold navigation.navbarScroll_body. by case_match.
  - unfold utils.debounce.
    eapply fresh_view; [|apply fresh_setTimeout, fresh_clearTimeout, H]. done.
  - apply Hview. unfold navigation.handleSmoothScroll.
    repeat case_match; try done. by rewrite timer_view_closeMobileMenu.
  - by apply fresh_handleContactForm.
  - apply Hview. unfold accessibility.keydown.
    case_match; [|done].
    change (timer_view (accessibility.set_body_classList ?f ?x))
      with (timer_view x).
    apply timer_view_closeMobileMenu.
Qed.

Lemma fresh_run pb es w : timers_fresh w -> timers_fresh (run pb es w).
Proof.
  revert w. induction es as [|e es IH]; intros w H; simpl; [done|].
  by apply IH, fresh_step.
Qed.

Lemma fresh_at_load : timers_fresh Sample.page.
Proof. constructor. Qed.

End TimerFacts.

(** * Further properties of the script *)

(** ** A scheme for invariants

    Every event of the page is a composition of a few primitive writes.  A
    property kept by each primitive is kept by every event, hence along
    every run. *)

Section Invariant.

Variable P : World -> Prop.

Hypothesis P_setTimeout :
  forall cb d w, cb <> ResizeCheck -> P w -> P (setTimeout cb d w).
Hypothesis P_debounce : forall w, P w -> P (utils.debounce ResizeCheck 250 w).
Hypothesis P_clearTimeout : forall id w, P w -> P (clearTimeout id w).
Hypothesis P_set_inThrottle : forall h b w, P w -> P (set_inThrottle h b w).
Hypothesis P_elapse : forall dt w, P w -> P (elapse dt w).
Hypothesis P_layout : forall l w, P w -> P (with_layout l w).
Hypothesis P_fields : forall d w, P w -> P (set_fields d w).
Hypothesis P_button : forall h b w, P w -> P (forms.set_button h b w).
Hypothesis P_reset : forall w, P w -> P (forms.reset w).
Hypothesis P_console : forall f w, P w -> P (with_console f w).
Hypothesis P_showMessage : forall m t w, P w -> P (forms.showMessage m t w).
Hypothesis P_remove : forall n w, P w -> P (run_callback (RemoveMessage n) w).
Hypothesis P_toggleMenu : forall w, P w -> P (navigation.toggleMobileMenu w).
Hypothesis P_closeMenu : forall w, P w -> P (navigation.closeMobileMenu w).
Hypothesis P_navbar : forall u w, P w -> P (navigation.navbarScroll_body u w).
Hypothesis P_reveal : forall w el, P w -> P (animations.reveal w el).
Hypothesis P_body_classList :
  forall f w, P w -> P (accessibility.set_body_classList f w).
Hypothesis P_style : forall e f w, P w -> P (update_style e f w).
Hypothesis P_scrollTo : forall t w, P w -> P (with_scrollTo t w).
Hypothesis P_setTheme : forall n w, P w -> P (theme.setTheme n w).

Lemma P_throttle {A} h (func : A -> World -> World) limit args w :
  (forall w, P w -> P (func args w)) -> P w ->
  P (utils.throttle h func limit args w).
Proof using P_setTimeout P_set_inThrottle.
  intros Hf H. unfold utils.throttle. destruct (inThrottle h w); [done|].
  by apply P_setTimeout, P_set_inThrottle, Hf.
Qed.

Lemma P_scan u w : P w -> P (animations.scan u w).
Proof using P_reveal.
  unfold animations.scan. generalize (fadeIn (layout w)). intros l. revert w.
  induction l as [|el l IH]; intros w H; simpl; [done|].
  by apply IH, P_reveal.
Qed.

Lemma P_handleContactForm w : P w -> P (forms.handleContactForm w).
Proof using P_setTimeout P_button P_showMessage.
  intros H. unfold forms.handleContactForm, forms.validateContactForm.
  repeat case_match; simplify_eq; try (by apply P_showMessage).
  unfold forms.submitContactForm. by apply P_setTimeout, P_button.
Qed.

Lemma P_run_callback cb w : P w -> P (run_callback cb w).
Proof using P_set_inThrottle P_remove P_console P_showMessage P_reset
  P_button P_closeMenu.
  intros H. destruct cb.
  - by apply P_set_inThrottle.
  - by apply P_remove.
  - simpl. unfold forms.submit_done.
    by apply P_button, P_reset, P_showMessage, P_console.
  - simpl. unfold init.resize_check. case_match; [by apply P_closeMenu|done].
Qed.

Lemma P_fire id w : P w -> P (fire id w).
Proof using P_set_inThrottle P_remove P_console P_showMessage P_reset
  P_button P_closeMenu P_clearTimeout.
  intros H. unfold fire. repeat case_match; try done.
  by apply P_run_callback, P_clearTimeout.
Qed.

(** A property kept by the primitives is kept by every event. *)
Lemma step_invariant pb e w : P w -> P (step pb e w).
Proof using All.
  intros H. destruct e; simpl.
  - by apply P_layout.
  - by apply P_fields.
  - by apply P_elapse.
  - by apply P_fire.
  - unfold animations.updateScrollProgress, animations.animateOnScroll,
      navigation.handleNavbarScroll.
    apply P_throttle; [intros w'; apply P_style|].
    apply P_throttle; [intros w'; apply P_scan|].
    apply P_throttle; [intros w'; apply P_navbar|done].
  - by apply P_debounce.
  - by apply P_toggleMenu.
  - unfold navigation.handleSmoothScroll. repeat case_match; try done.
    by apply P_closeMenu, P_scrollTo.
  - by apply P_handleContactForm.
  - unfold accessibility.keydown. apply P_body_classList.
    case_match; [by apply P_closeMenu|done].
  - by apply P_body_classList.
  - by apply P_style.
  - by apply P_style.
  - by apply P_style.
  - by apply P_style.
  - by apply P_setTheme.
Qed.

Lemma run_invariant pb es w : P w -> P (run pb es w).
Proof using All.
  revert w. induction es as [|e es IH]; intros w H; simpl; [done|].
  by apply IH, step_invariant.
Qed.

End Invariant.

(** ** The menu and the navbar mirror their flags *)

(** Closes the cases of [step_invariant] in which the primitive does not
    write what the property reads. *)
Ltac untouched :=
  intros; unfold utils.debounce; cbv zeta; unfold clearTimeout;
  repeat case_match;
  match goal with H : _ |- _ => exact H end.

Section MirrorFacts.

Lemma contains_add tok x l :
  ClassList.contains tok (ClassList.add x l)
  = if decide (tok = x) then true else ClassList.contains tok l.
Proof.
  unfold ClassList.add. destruct (ClassList.contains x l) eqn:Hx.
  - destruct (decide (tok = x)) as [->|]; done.
  - apply contains_snoc.
Qed.

Lemma menu_mirrors_toggle w :
  menu_mirrors w -> menu_mirrors (navigation.toggleMobileMenu w).
Proof.
  intros (Hh & Hb & Ht & Ho). unfold menu_mirrors.
  rewrite toggle_mobileMenu, toggle_icon, toggle_isMenuOpen, toggle_body_overflow.
  rewrite !contains_toggle. simpl.
  rewrite Hh, Hb, Ht. done.
Qed.

Lemma menu_mirrors_close w :
  menu_mirrors w -> menu_mirrors (navigation.closeMobileMenu w).
Proof.
  intros H. unfold navigation.closeMobileMenu.
  destruct (isMenuOpen (state w)) eqn:Hopen; [|done].
  unfold menu_mirrors. simpl.
  rewrite !contains_remove, !contains_add. done.
Qed.

(** Whatever the menu looked like, closing an open menu leaves it mirrored. *)
Lemma closeMobileMenu_open_mirrors w :
  isMenuOpen (state w) = true ->
  menu_mirrors (navigation.closeMobileMenu w).
Proof.
  intros Hopen. unfold navigation.closeMobileMenu. rewrite Hopen.
  unfold menu_mirrors. simpl.
  rewrite !contains_remove, !contains_add. done.
Qed.

Lemma menu_mirrors_step pb e w : menu_mirrors w -> menu_mirrors (step pb e w).
Proof.
  apply (step_invariant menu_mirrors); try untouched.
  - apply menu_mirrors_toggle.
  - apply menu_mirrors_close.
  - intros u w' H. unfold navigation.navbarScroll_body. by case_match.
  - intros w' el H. unfold animations.reveal. destruct el.
    by repeat case_match.
Qed.

Lemma navbar_mirrors_body u w :
  navbar_mirrors w -> navbar_mirrors (navigation.navbarScroll_body u w).
Proof.
  intros H. unfold navigation.navbarScroll_body.
  generalize (PrimFloat.ltb (float_of_Z 50) (scrollY (layout w))).
  intros scrolled. case_match; [|done]. unfold navbar_mirrors.
  cbn [navbar_classList menuDom with_menu with_state state isScrolled].
  unfold ClassList.toggle_force. destruct scrolled.
  - by rewrite contains_add.
  - by rewrite contains_remove.
Qed.

Lemma navbar_mirrors_step pb e w :
  navbar_mirrors w -> navbar_mirrors (step pb e w).
Proof.
  apply (step_invariant navbar_mirrors); try untouched.
  - intros w' H. unfold navigation.closeMobileMenu. by case_match.
  - apply navbar_mirrors_body.
  - intros w' el H. unfold animations.reveal. destruct el.
    by repeat case_match.
Qed.

End MirrorFacts.

(** X1.  The open/closed flag of the mobile menu is mirrored in the
    document, and stays so through every event: the panel carries [hidden],
    the icon carries [fa-bars] and not [fa-times], and the body overflow is
    empty exactly while the flag is down (and the reverse while it is up). *)
Theorem menu_mirrors_run (progressBar : elem) (es : list event) (w : World) :
  menu_mirrors w -> menu_mirrors (run progressBar es w).
Proof.
  revert w. induction es as [|e es IH]; intros w H; simpl; [done|].
  by apply IH, menu_mirrors_step.
Qed.

Lemma menu_mirrors_run_page :
  menu_mirrors Sample.page
  /\ menu_mirrors
       (run 9 [ClickMenuButton; Scroll; KeyDown "Escape"; ClickMenuButton]
          Sample.page).
Proof.
  assert (H : menu_mirrors Sample.page) by (repeat split).
  split; [exact H|].
  exact (menu_mirrors_run 9
           [ClickMenuButton; Scroll; KeyDown "Escape"; ClickMenuButton]
           Sample.page H).
Defined.

(** X2.  Closing is idempotent, and closing an open menu puts the document
    in the closed position whatever it looked like before: flag down, panel
    hidden, bars icon shown, times icon gone, body overflow empty. *)
Theorem closeMobileMenu_idempotent (w : World) :
  navigation.closeMobileMenu (navigation.closeMobileMenu w)
    = navigation.closeMobileMenu w
  /\ (isMenuOpen (state w) = true ->
      let w' := navigation.closeMobileMenu w in
      isMenuOpen (state w') = false
      /\ ClassList.contains "hidden" (mobileMenu_classList (menuDom w')) = true
      /\ ClassList.contains "fa-bars" (icon_classList (menuDom w')) = true
      /\ ClassList.contains "fa-times" (icon_classList (menuDom w')) = false
      /\ body_overflow (menuDom w') = "").
Proof.
  split.
  - assert (Hflag : isMenuOpen (state (navigation.closeMobileMenu w)) = false).
    { unfold navigation.closeMobileMenu.
      by destruct (isMenuOpen (state w)) eqn:Hopen. }
    unfold navigation.closeMobileMenu at 1. by rewrite Hflag.
  - intros Hopen w'. subst w'.
    destruct (closeMobileMenu_open_mirrors w Hopen) as (Hh & Hb & Ht & Ho).
    assert (Hflag : isMenuOpen (state (navigation.closeMobileMenu w)) = false).
    { unfold navigation.closeMobileMenu. by rewrite Hopen. }
    rewrite Hflag in Hh, Hb, Ht, Ho. done.
Qed.

(** X3.  The [navbar-scrolled] class of the navbar mirrors the scrolled flag
    through every event, and a navbar scroll handler that the throttle lets
    through leaves the flag equal to [scrollY > 50]. *)
Theorem navbar_mirrors_run (progressBar : elem) (es : list event) (w : World) :
  navbar_mirrors w ->
  navbar_mirrors (run progressBar es w)
  /\ (inThrottle NavbarScroll (run progressBar es w) = false ->
      isScrolled (state (navigation.handleNavbarScroll (run progressBar es w)))
      = PrimFloat.ltb (float_of_Z 50) (scrollY (layout (run progressBar es w)))).
Proof.
  intros H. split.
  - revert w H. induction es as [|e es IH]; intros w H; simpl; [done|].
    by apply IH, navbar_mirrors_step.
  - generalize (run progressBar es w). intros w' Hdown.
    unfold navigation.handleNavbarScroll.
    rewrite (throttle_runs _ _ _ _ _ Hdown).
    cbn [state setTimeout set_inThrottle with_sched].
    unfold navigation.navbarScroll_body.
    generalize (PrimFloat.ltb (float_of_Z 50) (scrollY (layout w'))).
    intros scrolled.
    destruct scrolled, (isScrolled (state w')) eqn:Hi; simpl; done.
Qed.

Lemma navbar_mirrors_run_page :
  navbar_mirrors Sample.page
  /\ navbar_mirrors (run 9 [Reflow Sample.in_view; Scroll] Sample.page)
  /\ (inThrottle NavbarScroll (run 9 [Reflow Sample.in_view; Scroll] Sample.page)
        = false ->
      isScrolled
        (state (navigation.handleNavbarScroll
                  (run 9 [Reflow Sample.in_view; Scroll] Sample.page)))
      = PrimFloat.ltb (float_of_Z 50)
          (scrollY (layout (run 9 [Reflow Sample.in_view; Scroll] Sample.page)))).
Proof.
  assert (H : navbar_mirrors Sample.page) by reflexivity.
  split; [exact H|].
  exact (navbar_mirrors_run 9 [Reflow Sample.in_view; Scroll] Sample.page H).
Defined.

Example navbar_scrolled_after_scroll :
  navbar_classList (menuDom (run 9 [Reflow Sample.in_view; Scroll] Sample.page))
  = ["fixed"; "navbar-scrolled"].
Proof. vm_compute. reflexivity. Qed.

(** ** Throttle and debounce *)

(** X4.  [utils.throttle]: a call that finds the flag down runs the wrapped
    function once, raises the flag and arms one timer of [limit] ms.  Until
    [limit] ms have passed the timer cannot run and every further call is
    dropped; when the timer runs it only lowers the flag: a dropped call is
    not made up for (no trailing call). *)
Theorem throttle_window {A : Type} (h : throttled)
    (func : A -> World -> World) (limit : N) (args : A) (w : World) :
  inThrottle h w = false ->
  timers_fresh w ->
  (forall a w, sched (func a w) = sched w) ->
  let w' := utils.throttle h func limit args w in
  let id := next_timer (sched w) in
  w' = setTimeout (ResetThrottle h) limit (set_inThrottle h true (func args w))
  /\ (forall dt args', (dt < limit)%N ->
        utils.throttle h func limit args' (elapse dt w') = elapse dt w'
        /\ fire id (elapse dt w') = elapse dt w')
  /\ (forall dt, (limit <= dt)%N ->
        fire id (elapse dt w')
        = set_inThrottle h false (clearTimeout (Some id) (elapse dt w'))
        /\ inThrottle h (fire id (elapse dt w')) = false
        /\ timers (sched (fire id (elapse dt w'))) = timers (sched w)).
Proof.
  intros Hdown Hfresh Hsched w' id. subst w'.
  rewrite (throttle_runs _ _ _ _ _ Hdown).
  assert (Hfilter : forall dt,
    filter (fun t => timer_id t = id)
      (timers (sched (elapse dt
         (setTimeout (ResetThrottle h) limit
            (set_inThrottle h true (func args w))))))
    = [{| timer_id := id; due := (clock (sched w) + limit)%N;
          action := ResetThrottle h |}]).
  { intros dt. simpl. rewrite Hsched.
    apply filter_fresh_timer; [exact Hfresh|done]. }
  split; [reflexivity|]. split.
  - intros dt args' Hdt. split.
    + apply throttle_skips. by destruct h.
    + eapply fire_not_due; [apply Hfilter|].
      simpl. rewrite Hsched. lia.
  - intros dt Hdt.
    assert (Hfire :
      fire id (elapse dt (setTimeout (ResetThrottle h) limit
                            (set_inThrottle h true (func args w))))
      = set_inThrottle h false
          (clearTimeout (Some id)
             (elapse dt (setTimeout (ResetThrottle h) limit
                           (set_inThrottle h true (func args w)))))).
    { unfold fire. rewrite Hfilter.
      cbn [due action run_callback].
      replace (clock (sched (elapse dt _))) with (clock (sched w) + dt)%N
        by (simpl; by rewrite Hsched).
      by rewrite (proj2 (N.leb_le _ _)) by lia. }
    rewrite Hfire. split; [reflexivity|]. split; [apply inThrottle_set|].
    simpl. rewrite Hsched. rewrite filter_app.
    rewrite filter_cons_False by (simpl; intros Hne; by apply Hne).
    rewrite app_nil_r.
    induction Hfresh as [|t l Ht _ IH]; [done|].
    rewrite filter_cons_True by (unfold id; lia). by rewrite IH.
Qed.

Lemma throttle_window_navbar :
  inThrottle NavbarScroll Sample.page = false
  /\ timers_fresh Sample.page
  /\ let w' := navigation.handleNavbarScroll Sample.page in
     let id := next_timer (sched Sample.page) in
     w' = setTimeout (ResetThrottle NavbarScroll) 10
            (set_inThrottle NavbarScroll true
               (navigation.navbarScroll_body tt Sample.page))
     /\ (forall dt args', (dt < 10)%N ->
           utils.throttle NavbarScroll navigation.navbarScroll_body 10 args'
             (elapse dt w') = elapse dt w'
           /\ fire id (elapse dt w') = elapse dt w')
     /\ (forall dt, (10 <= dt)%N ->
           fire id (elapse dt w')
           = set_inThrottle NavbarScroll false
               (clearTimeout (Some id) (elapse dt w'))
           /\ inThrottle NavbarScroll (fire id (elapse dt w')) = false
           /\ timers (sched (fire id (elapse dt w'))) = timers (sched Sample.page)).
Proof.
  split; [reflexivity|]. split; [constructor|].
  apply (throttle_window NavbarScroll navigation.navbarScroll_body 10 tt
           Sample.page); [reflexivity|constructor|].
  intros a w. unfold navigation.navbarScroll_body.
  destruct (negb _); reflexivity.
Defined.

Section DebounceFacts.

Lemma resize_tracked_view w w' :
  sched w' = sched w -> resize_tracked w -> resize_tracked w'.
Proof. unfold resize_tracked, timers_fresh. by intros ->. Qed.

Lemma resize_tracked_setTimeout cb d w :
  cb <> ResizeCheck -> resize_tracked w -> resize_tracked (setTimeout cb d w).
Proof.
  intros Hcb [Hf Ht]. split; [by apply fresh_setTimeout|].
  simpl. apply Forall_app. split; [exact Ht|].
  constructor; [|constructor]. unfold is_resize_timer. simpl.
  by destruct cb.
Qed.

Lemma resize_tracked_clearTimeout id w :
  resize_tracked w -> resize_tracked (clearTimeout id w).
Proof.
  intros [Hf Ht]. split; [by apply fresh_clearTimeout|].
  destruct id as [i|]; [|done]. simpl.
  rewrite Forall_forall in Ht. rewrite Forall_forall.
  intros t [_ Hin]%list_elem_of_filter. by apply Ht.
Qed.

Lemma resize_checks_cleared (l : list timer) (i : nat) :
  Forall (fun t => is_resize_timer t = true -> Some i = Some (timer_id t)) l ->
  filter (fun t => is_resize_timer t = true)
    (filter (fun t => timer_id t <> i) l) = [].
Proof.
  induction 1 as [|t l Ht _ IH]; [done|].
  destruct (decide (timer_id t = i)) as [E|E].
  - rewrite filter_cons_False by (intros Hne; by apply Hne). exact IH.
  - rewrite filter_cons_True by done.
    rewrite filter_cons_False; [exact IH|].
    intros Hr. apply Ht in Hr. congruence.
Qed.

Lemma resize_checks_none (l : list timer) :
  Forall (fun t => is_resize_timer t = true -> None = Some (timer_id t)) l ->
  filter (fun t => is_resize_timer t = true) l = [].
Proof.
  induction 1 as [|t l Ht _ IH]; [done|].
  rewrite filter_cons_False; [exact IH|].
  intros Hr. by apply Ht in Hr.
Qed.

(** After a resize event the only pending resize check is the new one. *)
Lemma debounce_pending w :
  resize_tracked w ->
  filter (fun t => is_resize_timer t = true)
    (timers (sched (utils.debounce ResizeCheck 250 w)))
  = [{| timer_id := next_timer (sched w); due := (clock (sched w) + 250)%N;
        action := ResizeCheck |}].
Proof.
  intros [Hf Ht]. unfold utils.debounce.
  assert (Hnone : filter (fun t => is_resize_timer t = true)
            (timers (sched (clearTimeout (resize_timeoutId (sched w)) w))) = []).
  { destruct (resize_timeoutId (sched w)) as [i|] eqn:Hid; simpl.
    - by apply resize_checks_cleared.
    - by apply resize_checks_none. }
  assert (Hnext : next_timer (sched (clearTimeout (resize_timeoutId (sched w)) w))
                  = next_timer (sched w))
    by (by destruct (resize_timeoutId (sched w))).
  assert (Hclock : clock (sched (clearTimeout (resize_timeoutId (sched w)) w))
                   = clock (sched w))
    by (by destruct (resize_timeoutId (sched w))).
  cbn [set_resize_timeoutId setTimeout with_sched sched timers].
  rewrite filter_app, Hnone, Hnext, Hclock. reflexivity.
Qed.

Lemma resize_tracked_debounce w :
  resize_tracked w -> resize_tracked (utils.debounce ResizeCheck 250 w).
Proof.
  intros H. pose proof (debounce_pending w H) as Hp.
  destruct H as [Hf Ht]. split.
  - unfold utils.debounce.
    eapply fresh_view; [|apply fresh_setTimeout, fresh_clearTimeout, Hf]. done.
  - assert (Hid : resize_timeoutId (sched (utils.debounce ResizeCheck 250 w))
                  = Some (next_timer (sched w))).
    { unfold utils.debounce. simpl. by destruct (resize_timeoutId (sched w)). }
    rewrite Hid. rewrite Forall_forall. intros t Hin Hr.
    assert (Hin' : t ∈ filter (fun t => is_resize_timer t = true)
                        (timers (sched (utils.debounce ResizeCheck 250 w)))).
    { by apply list_elem_of_filter. }
    rewrite Hp in Hin'. apply list_elem_of_singleton in Hin'. by subst t.
Qed.

Lemma resize_tracked_step pb e w :
  resize_tracked w -> resize_tracked (step pb e w).
Proof.
  apply (step_invariant resize_tracked);
    try (intros; by apply (resize_tracked_view _ _ eq_refl)).
  - apply resize_tracked_setTimeout.
  - apply resize_tracked_debounce.
  - apply resize_tracked_clearTimeout.
  - intros m t w' H. unfold forms.showMessage.
    apply resize_tracked_setTimeout; [done|].
    by apply (resize_tracked_view w').
  - intros w' H. eapply resize_tracked_view; [|exact H].
    unfold navigation.closeMobileMenu. by case_match.
  - intros u w' H. eapply resize_tracked_view; [|exact H].
    unfold navigation.navbarScroll_body. by case_match.
  - intros w' el H. eapply resize_tracked_view; [|exact H].
    apply sched_reveal.
Qed.

Lemma resize_tracked_run pb es w :
  resize_tracked w -> resize_tracked (run pb es w).
Proof.
  revert w. induction es as [|e es IH]; intros w H; simpl; [done|].
  by apply IH, resize_tracked_step.
Qed.

End DebounceFacts.

(** X5.  The resize listener is debounced: whatever happened before (other
    resize events included), after a resize event there is exactly one
    pending resize check, due 250 ms after that event; an earlier pending
    check has been cancelled.  When that check runs, it closes the menu if
    the window is wider than 768px and leaves the flag alone otherwise. *)
Theorem resize_debounced (progressBar : elem) (es : list event) (w : World) :
  resize_tracked w ->
  let w1 := run progressBar es w in
  let w2 := step progressBar Resize w1 in
  filter (fun t => is_resize_timer t = true) (timers (sched w2))
  = [{| timer_id := next_timer (sched w1); due := (clock (sched w1) + 250)%N;
        action := ResizeCheck |}]
  /\ resize_tracked w2
  /\ (forall w3,
        isMenuOpen (state (run_callback ResizeCheck w3))
        = isMenuOpen (state w3) && negb (768 <? innerWidth (layout w3))%Z).
Proof.
  intros H w1 w2. subst w2.
  assert (H1 : resize_tracked w1) by (by apply resize_tracked_run).
  split; [by apply debounce_pending|].
  split; [by apply resize_tracked_debounce|].
  intros w3. simpl. unfold init.resize_check, navigation.closeMobileMenu.
  destruct (768 <? innerWidth (layout w3))%Z, (isMenuOpen (state w3)) eqn:Ho;
    simpl; rewrite ?Ho; done.
Qed.

Lemma resize_debounced_page :
  resize_tracked Sample.page
  /\ let w1 := run 9 [Resize; Elapse 100; Resize; Elapse 100] Sample.page in
     let w2 := step 9 Resize w1 in
     filter (fun t => is_resize_timer t = true) (timers (sched w2))
     = [{| timer_id := next_timer (sched w1); due := (clock (sched w1) + 250)%N;
           action := ResizeCheck |}]
     /\ resize_tracked w2
     /\ (forall w3,
           isMenuOpen (state (run_callback ResizeCheck w3))
           = isMenuOpen (state w3) && negb (768 <? innerWidth (layout w3))%Z).
Proof.
  assert (H : resize_tracked Sample.page) by (split; constructor).
  split; [exact H|].
  exact (resize_debounced 9 [Resize; Elapse 100; Resize; Elapse 100]
           Sample.page H).
Defined.

(** Three resize events 100 ms apart: one check, 250 ms after the last. *)
Example resize_burst :
  map (fun t => (due t, action t))
    (timers (sched (run 9 [Resize; Elapse 100; Resize; Elapse 100; Resize]
                      Sample.page)))
  = [(450%N, ResizeCheck)]
  /\ isMenuOpen
       (state (run 9 [Resize; Elapse 250; Fire 0] wide_open_page)) = false.
Proof. split; vm_compute; reflexivity. Qed.

(** ** The theme controller *)

Section ThemeMore.

Lemma setTheme_setTheme a b w :
  theme.setTheme a (theme.setTheme b w) = theme.setTheme a w.
Proof.
  unfold theme.setTheme, with_theme. simpl. by rewrite insert_insert_eq.
Qed.

Lemma savedTheme_nonempty w : theme.savedTheme w <> "".
Proof.
  unfold theme.savedTheme.
  destruct (localStorage (themeDom w) !! "theme") as [s|]; [|done].
  destruct (String.eqb_spec s ""); done.
Qed.

Lemma savedTheme_setTheme a w :
  a <> "" -> theme.savedTheme (theme.setTheme a w) = a.
Proof.
  intros Ha. unfold theme.savedTheme. simpl. rewrite lookup_insert_eq.
  by destruct (String.eqb_spec a "").
Qed.

End ThemeMore.

(** X6.  Toggle always lands on one of the two known themes, and on a known
    theme it is an involution: two toggles give back the class of the root
    element and store it. *)
Theorem theme_toggle_involution (w : World) :
  (root_className (themeDom (theme.toggle w)) = "light"
   \/ root_className (themeDom (theme.toggle w)) = "dark")
  /\ (root_className (themeDom w) = "light"
      \/ root_className (themeDom w) = "dark" ->
      root_className (themeDom (theme.toggle (theme.toggle w)))
        = root_className (themeDom w)
      /\ localStorage (themeDom (theme.toggle (theme.toggle w))) !! "theme"
         = Some (root_className (themeDom w)))
  /\ root_className (themeDom (theme.toggle (theme.toggle (theme.toggle w))))
     = root_className (themeDom (theme.toggle w)).
Proof.
  assert (Htwice : forall w',
    root_className (themeDom w') = "light" \/ root_className (themeDom w') = "dark" ->
    root_className (themeDom (theme.toggle (theme.toggle w')))
      = root_className (themeDom w')
    /\ localStorage (themeDom (theme.toggle (theme.toggle w'))) !! "theme"
       = Some (root_className (themeDom w'))).
  { intros w' Hk. unfold theme.toggle.
    cbn [theme.setTheme with_theme themeDom root_className localStorage].
    rewrite lookup_insert_eq.
    destruct Hk as [-> | ->]; simpl; done. }
  assert (Hknown : forall w',
    root_className (themeDom (theme.toggle w')) = "light"
    \/ root_className (themeDom (theme.toggle w')) = "dark").
  { intros w'. unfold theme.toggle. simpl.
    destruct (String.eqb _ _); auto. }
  split; [apply Hknown|]. split; [apply Htwice|].
  apply (Htwice (theme.toggle w)), Hknown.
Qed.

(** X7.  Start-up of the theme: the class applied is never empty (a missing
    or empty entry gives ["light"]); a stored non-empty preference is applied
    and the storage is left exactly as it was; and initialising twice is
    the same as initialising once. *)
Theorem theme_init_keeps_preference (w : World) :
  root_className (themeDom (theme.init w)) <> ""
  /\ (localStorage (themeDom w) !! "theme" = None
      \/ localStorage (themeDom w) !! "theme" = Some "" ->
      root_className (themeDom (theme.init w)) = "light"
      /\ localStorage (themeDom (theme.init w)) !! "theme" = Some "light")
  /\ (forall s, s <> "" -> localStorage (themeDom w) !! "theme" = Some s ->
      root_className (themeDom (theme.init w)) = s
      /\ localStorage (themeDom (theme.init w)) = localStorage (themeDom w))
  /\ theme.init (theme.init w) = theme.init w.
Proof.
  split; [apply savedTheme_nonempty|]. split; [|split].
  - intros H. unfold theme.init, theme.savedTheme.
    destruct H as [-> | ->]; simpl; by rewrite lookup_insert_eq.
  - intros s Hs Hl. unfold theme.init, theme.savedTheme. rewrite Hl.
    destruct (String.eqb_spec s ""); [done|]. simpl.
    split; [done|]. by apply insert_id.
  - unfold theme.init at 1.
    unfold theme.init. rewrite savedTheme_setTheme by apply savedTheme_nonempty.
    apply setTheme_setTheme.
Qed.

Example theme_init_on_sample_pages :
  root_className (themeDom (theme.init Sample.page)) = "light"
  /\ root_className (themeDom (theme.init Sample.page_blue)) = "blue".
Proof. split; reflexivity. Qed.

(** ** Keyboard and pointer *)

(** X8.  After a key-down the page is in keyboard-navigation mode, after a
    pointer-down it is not.  Escape leaves the menu closed whatever its
    state was; any other key, and a pointer-down, leave the menu flag as it
    is. *)
Theorem keydown_escape_closes (key : string) (w : World) :
  ClassList.contains "keyboard-navigation"
    (body_classList (menuDom (accessibility.keydown key w))) = true
  /\ ClassList.contains "keyboard-navigation"
       (body_classList (menuDom (accessibility.mousedown w))) = false
  /\ isMenuOpen (state (accessibility.keydown "Escape" w)) = false
  /\ (key <> "Escape" ->
      isMenuOpen (state (accessibility.keydown key w)) = isMenuOpen (state w))
  /\ isMenuOpen (state (accessibility.mousedown w)) = isMenuOpen (state w).
Proof.
  split; [|split; [|split; [|split]]].
  - unfold accessibility.keydown, accessibility.set_body_classList.
    cbn [with_menu menuDom body_classList]. apply contains_add.
  - unfold accessibility.mousedown, accessibility.set_body_classList.
    cbn [with_menu menuDom body_classList]. rewrite contains_remove. done.
  - unfold accessibility.keydown, navigation.closeMobileMenu.
    destruct (isMenuOpen (state w)) eqn:Ho; simpl; [done|exact Ho].
  - intros Hk. unfold accessibility.keydown.
    destruct (String.eqb_spec key "Escape"); done.
  - reflexivity.
Qed.

(** ** More on the contact form *)

Section FormMore.
Import JsString.

Lemma shape_filled s : Spec.email_shape s -> Spec.filled s = true.
Proof.
  intros (l & d & t & Hl & _ & _ & Fl & _ & _ & ->).
  destruct l as [|c l]; [done|].
  inversion Fl as [|? ? [Hc _] _]; subst.
  unfold Spec.filled. simpl. by rewrite Hc.
Qed.

Lemma shape_no_space s c :
  Spec.email_shape s -> c ∈ s -> is_space c = false.
Proof.
  intros (l & d & t & _ & _ & _ & Fl & Fd & Ft & ->) Hin.
  rewrite Forall_forall in Fl, Fd, Ft.
  apply elem_of_app in Hin as [Hin|Hin]; [by apply Fl|].
  apply elem_of_cons in Hin as [->|Hin]; [done|].
  apply elem_of_app in Hin as [Hin|Hin]; [by apply Fd|].
  apply elem_of_cons in Hin as [->|Hin]; [done|].
  by apply Ft.
Qed.

Lemma isValidEmail_shape s : forms.isValidEmail s = true <-> Spec.email_shape s.
Proof.
  unfold forms.isValidEmail. rewrite test_matches. apply email_matches_shape.
Qed.

Lemma fire_runs id w t rest :
  filter (fun t => timer_id t = id) (timers (sched w)) = t :: rest ->
  (due t <= clock (sched w))%N ->
  fire id w = run_callback (action t) (clearTimeout (Some id) w).
Proof.
  intros Hf Hdue. unfold fire. rewrite Hf.
  by rewrite (proj2 (N.leb_le _ _) Hdue).
Qed.

Lemma button_submit_done data originalText w :
  button_innerHTML (formDom (forms.submit_done data originalText w)) = originalText
  /\ button_disabled (formDom (forms.submit_done data originalText w)) = false
  /\ fields (formDom (forms.submit_done data originalText w))
     = field_defaults (formDom w)
  /\ console (forms.submit_done data originalText w)
     = console w ++ ["Form submitted:"]
  /\ body (formDom (forms.submit_done data originalText w))
     = body (formDom (forms.showMessage thank_you "success" w)).
Proof. repeat split. Qed.

End FormMore.

(** X9.  [validateContactForm] returns true exactly when the name, the
    subject and the message hold something besides white space and the email
    has the shape local@domain.suffix; it then shows nothing and changes
    nothing.  The email is tested as typed, not trimmed: one white-space
    character anywhere in it, leading or trailing included, makes the
    validation fail. *)
Theorem validateContactForm_accepts (data : FormData) (w : World) :
  (fst (forms.validateContactForm data w) = true
   <-> Spec.filled (name data) = true
       /\ Spec.email_shape (email data)
       /\ Spec.filled (subject data) = true
       /\ Spec.filled (message data) = true)
  /\ (fst (forms.validateContactForm data w) = true ->
      snd (forms.validateContactForm data w) = w)
  /\ (forall c, c ∈ email data -> JsString.is_space c = true ->
      fst (forms.validateContactForm data w) = false).
Proof.
  assert (Hiff : fst (forms.validateContactForm data w) = true
   <-> Spec.filled (name data) = true
       /\ Spec.email_shape (email data)
       /\ Spec.filled (subject data) = true
       /\ Spec.filled (message data) = true).
  { rewrite validateContactForm_first_failure, first_failure_cases.
    rewrite <- isValidEmail_shape.
    pose proof (shape_filled (email data)) as Hsf.
    rewrite <- isValidEmail_shape in Hsf.
    destruct (Spec.filled (name data)); simpl; [|intuition discriminate].
    destruct (forms.isValidEmail (email data)); simpl.
    - rewrite Hsf by done. simpl.
      destruct (Spec.filled (subject data)); simpl; [|intuition discriminate].
      destruct (Spec.filled (message data)); simpl; intuition discriminate.
    - rewrite andb_false_r. simpl. intuition discriminate. }
  split; [exact Hiff|]. split.
  - rewrite validateContactForm_first_failure.
    by destruct (Spec.first_failure data).
  - intros c Hin Hc. apply not_true_is_false. intros Hv.
    apply Hiff in Hv as (_ & Hshape & _).
    pose proof (shape_no_space _ _ Hshape Hin). congruence.
Qed.

Example email_with_trailing_space_rejected :
  Spec.first_failure
    {| name := JsString.of_string "Ada";
       email := JsString.of_string "a@b.co ";
       subject := JsString.of_string "Hello";
       message := JsString.of_string "A few words." |} = Some Spec.Email.
Proof. reflexivity. Qed.

(** X10.  A valid form goes through the whole cycle.  On submit the button
    is disabled and shows the sending label, no message is shown, and the
    submission timer is armed; it cannot run before 2000 ms.  When it runs,
    the submission is logged, the success message becomes the first child of
    the form, the fields are reset to their defaults, and the button gets
    back its original label and is enabled. *)
Theorem valid_submission_cycle (w : World) (kids : list node) :
  Spec.first_failure (fields (formDom w)) = None ->
  timers_fresh w ->
  Dom.children_of (contactForm (formDom w))
    (forms.without_existing (body (formDom w))) = Some kids ->
  let w1 := forms.handleContactForm w in
  let id := next_timer (sched w) in
  button_disabled (formDom w1) = true
  /\ button_innerHTML (formDom w1) = forms.sending_label
  /\ body (formDom w1) = body (formDom w)
  /\ (forall dt, (dt < 2000)%N -> fire id (elapse dt w1) = elapse dt w1)
  /\ (forall dt, (2000 <= dt)%N ->
      let w2 := fire id (elapse dt w1) in
      console w2 = console w ++ ["Form submitted:"]
      /\ form_children w2
         = Some (Node (next_elem (formDom w)) (forms.message_className "success")
                   thank_you [] :: kids)
      /\ fields (formDom w2) = field_defaults (formDom w)
      /\ button_innerHTML (formDom w2) = button_innerHTML (formDom w)
      /\ button_disabled (formDom w2) = false).
Proof.
  intros Hvalid Hfresh Hform w1 id. subst w1.
  rewrite (handleContactForm_valid w Hvalid).
  set (data := fields (formDom w)). set (orig := button_innerHTML (formDom w)).
  set (w1 := forms.submitContactForm data orig
               (forms.set_button forms.sending_label true w)).
  assert (Hfilter : forall dt,
    filter (fun t => timer_id t = id) (timers (sched (elapse dt w1)))
    = [{| timer_id := id; due := (clock (sched w) + 2000)%N;
          action := SubmitDone data orig |}]).
  { intros dt. simpl. apply filter_fresh_timer; [exact Hfresh|done]. }
  split; [reflexivity|]. split; [reflexivity|]. split; [reflexivity|]. split.
  - intros dt Hdt. eapply fire_not_due; [apply Hfilter|]. simpl. lia.
  - intros dt Hdt w2. subst w2.
    rewrite (fire_runs id (elapse dt w1) _ [] (Hfilter dt)) by (simpl; lia).
    cbn [action run_callback].
    destruct (button_submit_done data orig
                (clearTimeout (Some id) (elapse dt w1)))
      as (Hb & Hd & Hfields & Hc & Hbody).
    split; [exact Hc|]. split; [|split; [exact Hfields|split; [exact Hb|exact Hd]]].
    unfold form_children. rewrite Hbody. simpl.
    by rewrite children_prepend, Hform.
Qed.

Lemma valid_submission_cycle_page :
  Spec.first_failure (fields (formDom page_filled)) = None
  /\ timers_fresh page_filled
  /\ Dom.children_of (contactForm (formDom page_filled))
       (forms.without_existing (body (formDom page_filled)))
     = Some [Node 4 "field" "" []]
  /\ let w1 := forms.handleContactForm page_filled in
     let id := next_timer (sched page_filled) in
     button_disabled (formDom w1) = true
     /\ button_innerHTML (formDom w1) = forms.sending_label
     /\ body (formDom w1) = body (formDom page_filled)
     /\ (forall dt, (dt < 2000)%N -> fire id (elapse dt w1) = elapse dt w1)
     /\ (forall dt, (2000 <= dt)%N ->
         let w2 := fire id (elapse dt w1) in
         console w2 = console page_filled ++ ["Form submitted:"]
         /\ form_children w2
            = Some [Node (next_elem (formDom page_filled))
                      (forms.message_className "success") thank_you [];
                    Node 4 "field" "" []]
         /\ fields (formDom w2) = field_defaults (formDom page_filled)
         /\ button_innerHTML (formDom w2) = button_innerHTML (formDom page_filled)
         /\ button_disabled (formDom w2) = false).
Proof.
  split; [reflexivity|]. split; [constructor|]. split; [reflexivity|].
  apply (valid_submission_cycle page_filled [Node 4 "field" "" []]);
    [reflexivity|constructor|reflexivity].
Defined.

Section Resubmission.

Lemma filter_fresh_none (l : list timer) n k :
  Forall (fun t => timer_id t < n) l -> n <= k ->
  filter (fun t => timer_id t = k) l = [].
Proof.
  induction 1 as [|t l Ht _ IH]; intros Hk; [done|].
  rewrite filter_cons_False by lia. by apply IH.
Qed.

Lemma filter_fresh_all (l : list timer) n k :
  Forall (fun t => timer_id t < n) l -> n <= k ->
  filter (fun t => timer_id t <> k) l = l.
Proof.
  induction 1 as [|t l Ht _ IH]; intros Hk; [done|].
  rewrite filter_cons_True by lia. by rewrite IH.
Qed.

End Resubmission.

(** X11.  The submit handler takes the button's label as it finds it.  A
    second submit event that arrives while the first submission is pending
    finds the sending label, and restores that: once both submissions have
    completed the button is enabled again but keeps the sending label. *)
Theorem resubmission_keeps_sending_label (progressBar : elem) (w : World) :
  Spec.first_failure (fields (formDom w)) = None ->
  timers_fresh w ->
  let id := next_timer (sched w) in
  let w' := run progressBar [Submit; Submit; Elapse 2000; Fire id; Fire (S id)] w in
  button_innerHTML (formDom w') = forms.sending_label
  /\ button_disabled (formDom w') = false.
Proof.
  intros Hvalid Hfresh id w'. subst w'.
  cbn [run fold_left step].
  rewrite (handleContactForm_valid w Hvalid).
  set (data := fields (formDom w)). set (orig := button_innerHTML (formDom w)).
  set (w1 := forms.submitContactForm data orig
               (forms.set_button forms.sending_label true w)).
  assert (Hvalid1 : Spec.first_failure (fields (formDom w1)) = None) by exact Hvalid.
  rewrite (handleContactForm_valid w1 Hvalid1).
  change (fields (formDom w1)) with data.
  change (button_innerHTML (formDom w1)) with forms.sending_label.
  set (w2 := forms.submitContactForm data forms.sending_label
               (forms.set_button forms.sending_label true w1)).
  set (a := {| timer_id := id; due := (clock (sched w) + 2000)%N;
               action := SubmitDone data orig |}).
  set (b := {| timer_id := S id; due := (clock (sched w) + 2000)%N;
               action := SubmitDone data forms.sending_label |}).
  assert (Ht2 : timers (sched (elapse 2000 w2)) = (timers (sched w) ++ [a]) ++ [b])
    by reflexivity.
  assert (Hfa : filter (fun t => timer_id t = id) (timers (sched (elapse 2000 w2)))
                = [a]).
  { rewrite Ht2, !filter_app.
    rewrite (filter_fresh_none _ id id Hfresh) by lia.
    rewrite filter_cons_True by done.
    rewrite filter_cons_False by (simpl; lia). done. }
  rewrite (fire_runs id (elapse 2000 w2) a [] Hfa) by (simpl; lia).
  cbn [action a run_callback].
  set (w3 := clearTimeout (Some id) (elapse 2000 w2)).
  set (w4 := forms.submit_done data orig w3).
  assert (Ht3 : timers (sched w3) = timers (sched w) ++ [b]).
  { subst w3. cbn [clearTimeout with_sched sched timers]. rewrite Ht2.
    rewrite !filter_app, (filter_fresh_all _ id id Hfresh) by lia.
    rewrite filter_cons_False by (simpl; intros Hne; by apply Hne).
    rewrite filter_cons_True by (simpl; lia). by rewrite app_nil_r. }
  assert (Hfb : filter (fun t => timer_id t = S id) (timers (sched w4)) = [b]).
  { subst w4. unfold forms.submit_done.
    cbn [forms.set_button forms.reset with_form sched].
    rewrite timers_showMessage.
    cbn [with_console sched]. rewrite Ht3, !filter_app.
    rewrite (filter_fresh_none _ id (S id) Hfresh) by lia.
    rewrite filter_cons_True by done.
    rewrite filter_cons_False; [done|].
    subst w3. simpl. lia. }
  rewrite (fire_runs (S id) w4 b [] Hfb) by (subst w4 w3; simpl; lia).
  cbn [action b run_callback].
  destruct (button_submit_done data forms.sending_label
              (clearTimeout (Some (S id)) w4)) as (Hb & Hd & _).
  by split.
Qed.

Lemma resubmission_keeps_sending_label_page :
  Spec.first_failure (fields (formDom page_filled)) = None
  /\ timers_fresh page_filled
  /\ let id := next_timer (sched page_filled) in
     let w' := run 9 [Submit; Submit; Elapse 2000; Fire id; Fire (S id)]
                 page_filled in
     button_innerHTML (formDom w') = forms.sending_label
     /\ button_disabled (formDom w') = false.
Proof.
  split; [reflexivity|]. split; [constructor|].
  apply (resubmission_keeps_sending_label 9 page_filled);
    [reflexivity|constructor].
Defined.

(** ** Superseded messages *)

Section RemoveFacts.

Lemma remove_absent_forest i d :
  Forall (fun n => i ∉ Dom.ids_node n -> Dom.remove_node i n = n) d ->
  i ∉ Dom.ids d -> Dom.remove i d = d.
Proof.
  induction 1 as [|k d Hk _ IH]; intros Hno; simpl; [done|].
  simpl in Hno. rewrite elem_of_app in Hno.
  destruct (Nat.eqb_spec (node_id k) i) as [E|E].
  - exfalso. apply Hno. left. destruct k as [j c t kids]. simpl in E. subst j.
    rewrite ids_node_unfold. left.
  - rewrite Hk by tauto. rewrite IH by tauto. done.
Qed.

Lemma remove_absent_node i n :
  i ∉ Dom.ids_node n -> Dom.remove_node i n = n.
Proof.
  induction n as [j c t kids IH] using node_ind.
  rewrite ids_node_unfold, remove_node_unfold. intros Hno.
  apply not_elem_of_cons in Hno as [_ Hno].
  by rewrite remove_absent_forest.
Qed.

(** Removing a node that is not in the tree changes nothing. *)
Lemma remove_absent i d : i ∉ Dom.ids d -> Dom.remove i d = d.
Proof.
  apply remove_absent_forest, Forall_forall. intros n _.
  apply remove_absent_node.
Qed.

End RemoveFacts.

(** X12.  The removal timer of a message is not cancelled when the message
    is replaced, and that is harmless: when [showMessage] has removed an
    earlier message, the earlier message's timer callback, whenever it runs
    afterwards, leaves the document as it is; the new message stays. *)
Theorem stale_message_timer_harmless
    (message type : string) (w : World) (existingMessage : elem) :
  Dom.querySelector "form-message" (body (formDom w)) = Some existingMessage ->
  existingMessage <> next_elem (formDom w) ->
  let w' := forms.showMessage message type w in
  body (formDom (run_callback (RemoveMessage existingMessage) w'))
  = body (formDom w').
Proof.
  intros Hq Hne w'. subst w'.
  cbn [run_callback with_form formDom body].
  apply remove_absent. intros Hin.
  cbn [forms.showMessage setTimeout with_sched with_form formDom body] in Hin.
  apply ids_prepend in Hin as [Hin|Hin].
  - rewrite ids_node_unfold in Hin. simpl in Hin.
    apply list_elem_of_singleton in Hin. by apply Hne.
  - revert Hin. unfold forms.without_existing. rewrite Hq. apply remove_gone.
Qed.

Lemma stale_message_timer_harmless_page :
  Dom.querySelector "form-message" (body (formDom page_with_message)) = Some 10
  /\ 10 <> next_elem (formDom page_with_message)
  /\ let w' := forms.showMessage "Please enter a subject." "error"
                 page_with_message in
     body (formDom (run_callback (RemoveMessage 10) w')) = body (formDom w').
Proof.
  split; [reflexivity|]. split; [discriminate|].
  apply (stale_message_timer_harmless "Please enter a subject." "error"
           page_with_message 10); [reflexivity|discriminate].
Defined.

(** ** What the fade-in scan leaves alone *)

Section ScanMore.

Lemma reveal_only_above w el e :
  e ∈ animatedElements (state (animations.reveal w el)) ->
  e ∈ animatedElements (state w)
  \/ (e = el.1 /\ above_threshold (layout w) el.2 = true).
Proof.
  unfold animations.reveal, above_threshold. destruct el as [element top].
  case_bool_decide as Hel; [auto|].
  destruct (PrimFloat.ltb top _) eqn:Hab; [|auto].
  simpl. intros [->%elem_of_singleton|Hin]%elem_of_union; auto.
Qed.

Lemma fold_only_above l w e :
  e ∈ animatedElements (state (fold_left animations.reveal l w)) ->
  e ∈ animatedElements (state w)
  \/ exists top, (e, top) ∈ l /\ above_threshold (layout w) top = true.
Proof.
  revert w. induction l as [|el l IH]; intros w; simpl; [auto|].
  intros Hin. apply IH in Hin as [Hin|(top & Hin & Hab)].
  - apply reveal_only_above in Hin as [Hin|[-> Hab]]; [auto|].
    right. exists el.2. split; [|done]. destruct el. left.
  - right. exists top. split; [by right|]. by rewrite layout_reveal in Hab.
Qed.

Lemma reveal_below_style w el e :
  (el.1 = e -> above_threshold (layout w) el.2 = false) ->
  style_of (animations.reveal w el) e = style_of w e.
Proof.
  unfold animations.reveal, above_threshold. destruct el as [element top].
  simpl. intros Hbelow.
  case_bool_decide as Hel; [done|].
  destruct (PrimFloat.ltb top _) eqn:Hab; [|done].
  change (style_of (with_state ?f ?x) e) with (style_of x e).
  apply style_of_update_style_ne. intros ->. specialize (Hbelow eq_refl).
  congruence.
Qed.

Lemma fold_below_style l w e :
  (forall top, (e, top) ∈ l -> above_threshold (layout w) top = false) ->
  style_of (fold_left animations.reveal l w) e = style_of w e.
Proof.
  revert w. induction l as [|el l IH]; intros w Hbelow; simpl; [done|].
  rewrite IH.
  - apply reveal_below_style. intros <-. apply Hbelow.
    destruct el. left.
  - intros top Hin. rewrite layout_reveal. apply Hbelow. by right.
Qed.

End ScanMore.

(** X13.  The scan reveals nothing else: an element is in the set after
    [animateOnScroll] only if it was there before or carries the fade-in
    marker with its top above 80% of the window height; and an element none
    of whose entries is above that line keeps its inline style. *)
Theorem animateOnScroll_reveals_only_above (w : World) (e : elem) :
  (e ∈ animatedElements (state (animations.animateOnScroll w)) ->
   e ∈ animatedElements (state w)
   \/ exists top, (e, top) ∈ fadeIn (layout w)
                  /\ above_threshold (layout w) top = true)
  /\ ((forall top, (e, top) ∈ fadeIn (layout w) ->
                   above_threshold (layout w) top = false) ->
      style_of (animations.animateOnScroll w) e = style_of w e
      /\ (e ∈ animatedElements (state (animations.animateOnScroll w))
          <-> e ∈ animatedElements (state w))).
Proof.
  assert (Hset : e ∈ animatedElements (state (animations.animateOnScroll w)) ->
   e ∈ animatedElements (state w)
   \/ exists top, (e, top) ∈ fadeIn (layout w)
                  /\ above_threshold (layout w) top = true).
  { unfold animations.animateOnScroll, utils.throttle.
    destruct (inThrottle AnimateOnScroll w); [auto|].
    cbn [setTimeout set_inThrottle with_sched state]. apply fold_only_above. }
  split; [exact Hset|].
  intros Hbelow. split.
  - unfold animations.animateOnScroll, utils.throttle.
    destruct (inThrottle AnimateOnScroll w); [done|].
    change (style_of (setTimeout ?cb ?l (set_inThrottle ?h ?b ?x)) ?e)
      with (style_of x e).
    by apply fold_below_style.
  - split; [|apply animated_animateOnScroll].
    intros Hin. destruct (Hset Hin) as [|(top & Hin' & Hab)]; [done|].
    rewrite (Hbelow top Hin') in Hab. discriminate.
Qed.

(** ** At most one message at a time *)

Section CountFacts.

Variable tok : string.

Lemma count_node_unfold j c t kids :
  count_node tok (Node j c t kids)
  = (if Dom.has_class tok c then 1 else 0) + count_class tok kids.
Proof.
  simpl. f_equal. induction kids as [|k kids IH]; simpl; [done|].
  by rewrite IH.
Qed.

Lemma query_node_unfold j c t kids :
  Dom.query_node tok (Node j c t kids)
  = if Dom.has_class tok c then Some j else Dom.querySelector tok kids.
Proof.
  simpl. destruct (Dom.has_class tok c); [done|].
  induction kids as [|k kids IH]; simpl; [done|].
  by rewrite IH.
Qed.

Lemma query_none_forest d :
  Forall (fun n => Dom.query_node tok n = None <-> count_node tok n = 0) d ->
  Dom.querySelector tok d = None <-> count_class tok d = 0.
Proof.
  induction 1 as [|k d Hk _ IH]; simpl; [done|].
  destruct (Dom.query_node tok k) as [r|] eqn:Hq.
  - split; [done|]. intros Hc.
    assert (count_node tok k = 0) as Hz by lia.
    apply Hk in Hz. discriminate.
  - rewrite (proj1 Hk eq_refl). simpl. exact IH.
Qed.

Lemma query_none_node n :
  Dom.query_node tok n = None <-> count_node tok n = 0.
Proof.
  induction n as [j c t kids IH] using node_ind.
  rewrite query_node_unfold, count_node_unfold.
  destruct (Dom.has_class tok c); simpl; [done|].
  by apply query_none_forest.
Qed.

(** [querySelector] finds nothing exactly when there is nothing to find. *)
Lemma query_none d : Dom.querySelector tok d = None <-> count_class tok d = 0.
Proof.
  apply query_none_forest, Forall_forall. intros n _. apply query_none_node.
Qed.

Lemma count_remove_le_forest i d :
  Forall (fun n => count_node tok (Dom.remove_node i n) <= count_node tok n) d ->
  count_class tok (Dom.remove i d) <= count_class tok d.
Proof.
  induction 1 as [|k d Hk _ IH]; simpl; [done|].
  destruct (Nat.eqb (node_id k) i); simpl; lia.
Qed.

Lemma count_remove_le_node i n :
  count_node tok (Dom.remove_node i n) <= count_node tok n.
Proof.
  induction n as [j c t kids IH] using node_ind.
  rewrite remove_node_unfold, !count_node_unfold.
  pose proof (count_remove_le_forest i kids IH). lia.
Qed.

Lemma count_remove_le i d :
  count_class tok (Dom.remove i d) <= count_class tok d.
Proof.
  apply count_remove_le_forest, Forall_forall. intros n _.
  apply count_remove_le_node.
Qed.

Lemma count_remove_found_forest i d :
  Forall (fun n => Dom.query_node tok n = Some i -> node_id n <> i ->
                   S (count_node tok (Dom.remove_node i n)) <= count_node tok n) d ->
  Dom.querySelector tok d = Some i ->
  S (count_class tok (Dom.remove i d)) <= count_class tok d.
Proof.
  induction 1 as [|k d Hk _ IH]; simpl; [done|].
  pose proof (count_remove_le i d) as Hle.
  pose proof (count_remove_le_node i k) as Hlek.
  destruct (Dom.query_node tok k) as [r|] eqn:Hq.
  - intros [= ->].
    destruct (Nat.eqb_spec (node_id k) i) as [E|E].
    + assert (count_node tok k <> 0) as Hnz.
      { intros Hz. apply query_none_node in Hz. congruence. }
      lia.
    + simpl. specialize (Hk eq_refl E). lia.
  - intros Hd. specialize (IH Hd).
    destruct (Nat.eqb (node_id k) i); simpl; lia.
Qed.

Lemma count_remove_found_node i n :
  Dom.query_node tok n = Some i -> node_id n <> i ->
  S (count_node tok (Dom.remove_node i n)) <= count_node tok n.
Proof.
  induction n as [j c t kids IH] using node_ind.
  rewrite query_node_unfold, remove_node_unfold, !count_node_unfold.
  simpl node_id. destruct (Dom.has_class tok c).
  - intros [= ->] Hne. done.
  - intros Hq _. pose proof (count_remove_found_forest i kids IH Hq). lia.
Qed.

(** Removing the node that [querySelector] found takes at least one
    element of the class away. *)
Lemma count_remove_found i d :
  Dom.querySelector tok d = Some i ->
  S (count_class tok (Dom.remove i d)) <= count_class tok d.
Proof.
  apply count_remove_found_forest, Forall_forall. intros n _.
  apply count_remove_found_node.
Qed.

Lemma children_count_forest p d kids :
  Forall (fun n => forall kids, Dom.children_in p n = Some kids ->
                   count_class tok kids <= count_node tok n) d ->
  Dom.children_of p d = Some kids ->
  count_class tok kids <= count_class tok d.
Proof.
  induction 1 as [|k d Hk _ IH]; simpl; [done|].
  destruct (Dom.children_in p k) as [r|] eqn:Hc.
  - intros [= ->]. specialize (Hk _ eq_refl). lia.
  - intros Hd. specialize (IH Hd). lia.
Qed.

Lemma children_count_node p n kids :
  Dom.children_in p n = Some kids ->
  count_class tok kids <= count_node tok n.
Proof.
  revert kids. induction n as [j c t ks IH] using node_ind. intros kids.
  rewrite children_in_unfold, count_node_unfold.
  destruct (Nat.eqb j p).
  - intros [= ->]. lia.
  - intros Hc. pose proof (children_count_forest p ks kids IH Hc). lia.
Qed.

(** The children of an element of the tree hold no more elements of the
    class than the tree. *)
Lemma children_count p d kids :
  Dom.children_of p d = Some kids ->
  count_class tok kids <= count_class tok d.
Proof.
  apply children_count_forest, Forall_forall. intros n _ ks.
  apply children_count_node.
Qed.

End CountFacts.

Section TreeShape.

Lemma ids_remove_forest i d :
  Forall (fun n => Dom.ids_node (Dom.remove_node i n) `sublist_of` Dom.ids_node n) d ->
  Dom.ids (Dom.remove i d) `sublist_of` Dom.ids d.
Proof.
  induction 1 as [|k d Hk _ IH]; simpl; [done|].
  destruct (Nat.eqb (node_id k) i).
  - by apply sublist_inserts_l.
  - simpl. by apply sublist_app.
Qed.

Lemma ids_remove_node i n :
  Dom.ids_node (Dom.remove_node i n) `sublist_of` Dom.ids_node n.
Proof.
  induction n as [j c t kids IH] using node_ind.
  rewrite remove_node_unfold, !ids_node_unfold.
  apply sublist_skip. by apply ids_remove_forest.
Qed.

(** What is left after a removal was there before, in the same order. *)
Lemma ids_remove i d : Dom.ids (Dom.remove i d) `sublist_of` Dom.ids d.
Proof.
  apply ids_remove_forest, Forall_forall. intros n _. apply ids_remove_node.
Qed.

Lemma prepend_absent_forest p new d :
  Forall (fun n => p ∉ Dom.ids_node n -> Dom.prepend_node p new n = n) d ->
  p ∉ Dom.ids d -> Dom.prepend p new d = d.
Proof.
  induction 1 as [|k d Hk _ IH]; intros Hno; simpl; [done|].
  simpl in Hno. rewrite elem_of_app in Hno.
  rewrite Hk by tauto. rewrite IH by tauto. done.
Qed.

Lemma prepend_absent_node p new n :
  p ∉ Dom.ids_node n -> Dom.prepend_node p new n = n.
Proof.
  induction n as [j c t kids IH] using node_ind.
  rewrite ids_node_unfold, prepend_node_unfold. intros Hno.
  apply not_elem_of_cons in Hno as [Hne Hno].
  rewrite (proj2 (Nat.eqb_neq j p)) by done.
  by rewrite prepend_absent_forest.
Qed.

(** Inserting under a parent that is not in the tree changes nothing. *)
Lemma prepend_absent p new d : p ∉ Dom.ids d -> Dom.prepend p new d = d.
Proof.
  apply prepend_absent_forest, Forall_forall. intros n _.
  apply prepend_absent_node.
Qed.

Variable tok : string.

Lemma count_prepend_forest p new d :
  Forall (fun n => NoDup (Dom.ids_node n) ->
            count_node tok (Dom.prepend_node p new n)
            <= count_node tok n + count_node tok new) d ->
  NoDup (Dom.ids d) ->
  count_class tok (Dom.prepend p new d) <= count_class tok d + count_node tok new.
Proof.
  induction 1 as [|k d Hk _ IH]; simpl; [lia|].
  intros (Hdk & Hdisj & Hdd)%NoDup_app.
  destruct (decide (p ∈ Dom.ids_node k)) as [Hin|Hout].
  - rewrite (prepend_absent p new d) by (by apply Hdisj).
    specialize (Hk Hdk). lia.
  - rewrite (prepend_absent_node p new k Hout).
    specialize (IH Hdd). lia.
Qed.

Lemma count_prepend_node p new n :
  NoDup (Dom.ids_node n) ->
  count_node tok (Dom.prepend_node p new n)
  <= count_node tok n + count_node tok new.
Proof.
  induction n as [j c t kids IH] using node_ind.
  rewrite ids_node_unfold, prepend_node_unfold.
  intros [_ Hd]%NoDup_cons.
  destruct (Nat.eqb j p); rewrite !count_node_unfold.
  - simpl. lia.
  - pose proof (count_prepend_forest p new kids IH Hd). lia.
Qed.

(** In a tree with distinct handles an insertion adds the new node once. *)
Lemma count_prepend p new d :
  NoDup (Dom.ids d) ->
  count_class tok (Dom.prepend p new d) <= count_class tok d + count_node tok new.
Proof.
  apply count_prepend_forest, Forall_forall. intros n _.
  apply count_prepend_node.
Qed.

Lemma NoDup_prepend_forest p new m d :
  Dom.ids_node new = [m] ->
  Forall (fun n => NoDup (Dom.ids_node n) -> m ∉ Dom.ids_node n ->
                   NoDup (Dom.ids_node (Dom.prepend_node p new n))) d ->
  NoDup (Dom.ids d) -> m ∉ Dom.ids d ->
  NoDup (Dom.ids (Dom.prepend p new d)).
Proof.
  intros Hnew. induction 1 as [|k d Hk _ IH]; simpl; [done|].
  intros (Hdk & Hdisj & Hdd)%NoDup_app Hm.
  rewrite elem_of_app in Hm.
  destruct (decide (p ∈ Dom.ids_node k)) as [Hin|Hout].
  - rewrite (prepend_absent p new d) by (by apply Hdisj).
    apply NoDup_app. split; [apply Hk; tauto|]. split; [|done].
    intros x Hx. apply ids_prepend_node in Hx as [Hx|Hx].
    + rewrite Hnew in Hx. apply list_elem_of_singleton in Hx. subst x. tauto.
    + by apply Hdisj.
  - rewrite (prepend_absent_node p new k Hout).
    apply NoDup_app. split; [done|]. split; [|apply IH; tauto].
    intros x Hx Hx'. apply ids_prepend in Hx' as [Hx'|Hx'].
    + rewrite Hnew in Hx'. apply list_elem_of_singleton in Hx'. subst x. tauto.
    + by apply (Hdisj x).
Qed.

Lemma NoDup_prepend_node p new m n :
  Dom.ids_node new = [m] ->
  NoDup (Dom.ids_node n) -> m ∉ Dom.ids_node n ->
  NoDup (Dom.ids_node (Dom.prepend_node p new n)).
Proof.
  intros Hnew. induction n as [j c t kids IH] using node_ind.
  rewrite ids_node_unfold, prepend_node_unfold.
  intros [Hj Hd]%NoDup_cons [Hmj Hm]%not_elem_of_cons.
  destruct (Nat.eqb j p); rewrite ids_node_unfold.
  - simpl. rewrite Hnew. simpl.
    apply NoDup_cons. split.
    + apply not_elem_of_cons. split; [congruence|done].
    + apply NoDup_cons. by split.
  - apply NoDup_cons. split.
    + intros Hx. apply ids_prepend in Hx as [Hx|Hx]; [|done].
      rewrite Hnew in Hx. apply list_elem_of_singleton in Hx. congruence.
    + by apply (NoDup_prepend_forest p new m).
Qed.

(** Inserting a new leaf keeps the handles distinct. *)
Lemma NoDup_prepend p new m d :
  Dom.ids_node new = [m] ->
  NoDup (Dom.ids d) -> m ∉ Dom.ids d ->
  NoDup (Dom.ids (Dom.prepend p new d)).
Proof.
  intros Hnew. apply (NoDup_prepend_forest p new m); [done|].
  apply Forall_forall. intros n _. by apply NoDup_prepend_node.
Qed.

End TreeShape.

Section OneMessage.

Lemma without_existing_sublist d :
  Dom.ids (forms.without_existing d) `sublist_of` Dom.ids d.
Proof.
  unfold forms.without_existing.
  destruct (Dom.querySelector "form-message" d); [apply ids_remove|done].
Qed.

Lemma without_existing_count d :
  count_class "form-message" d <= 1 ->
  count_class "form-message" (forms.without_existing d) = 0.
Proof.
  intros Hle. unfold forms.without_existing.
  destruct (Dom.querySelector "form-message" d) as [i|] eqn:Hq.
  - pose proof (count_remove_found _ _ _ Hq). lia.
  - by apply query_none.
Qed.

Lemma count_message_node type m msg :
  count_node "form-message" (Node m (forms.message_className type) msg []) = 1.
Proof. rewrite count_node_unfold, message_has_class. reflexivity. Qed.

Lemma one_message_showMessage m t w :
  one_message w -> one_message (forms.showMessage m t w).
Proof.
  intros [[Hnd Hlt] Hcount].
  pose proof (without_existing_sublist (body (formDom w))) as Hsub.
  assert (Hnd1 : NoDup (Dom.ids (forms.without_existing (body (formDom w)))))
    by (by apply (sublist_NoDup _ _ Hnd)).
  assert (Hlt1 : forall x, x ∈ Dom.ids (forms.without_existing (body (formDom w)))
                           -> x < next_elem (formDom w)).
  { intros x Hx. rewrite Forall_forall in Hlt. apply Hlt.
    by apply (elem_of_sublist _ _ _ Hx). }
  assert (Hfresh : next_elem (formDom w)
                     ∉ Dom.ids (forms.without_existing (body (formDom w)))).
  { intros Hx. apply Hlt1 in Hx. lia. }
  unfold one_message, document_ok.
  cbn [forms.showMessage setTimeout with_sched with_form formDom body next_elem].
  split; [split|].
  - by apply (NoDup_prepend _ _ (next_elem (formDom w))).
  - apply Forall_forall. intros x Hx. apply ids_prepend in Hx as [Hx|Hx].
    + rewrite ids_node_unfold in Hx. simpl in Hx.
      apply list_elem_of_singleton in Hx. lia.
    + apply Hlt1 in Hx. lia.
  - pose proof (count_prepend "form-message" (contactForm (formDom w))
                  (Node (next_elem (formDom w)) (forms.message_className t) m [])
                  _ Hnd1) as Hle.
    rewrite count_message_node, without_existing_count in Hle by done.
    exact Hle.
Qed.

Lemma one_message_remove n w :
  one_message w -> one_message (run_callback (RemoveMessage n) w).
Proof.
  intros [[Hnd Hlt] Hcount].
  pose proof (ids_remove n (body (formDom w))) as Hsub.
  unfold one_message, document_ok.
  cbn [run_callback with_form formDom body next_elem].
  split; [split|].
  - by apply (sublist_NoDup _ _ Hnd).
  - apply Forall_forall. intros x Hx. rewrite Forall_forall in Hlt.
    apply Hlt. by apply (elem_of_sublist _ _ _ Hx).
  - pose proof (count_remove_le "form-message" n (body (formDom w))). lia.
Qed.

Lemma one_message_step pb e w : one_message w -> one_message (step pb e w).
Proof.
  apply (step_invariant one_message); try untouched.
  - apply one_message_showMessage.
  - apply one_message_remove.
  - intros w' H. unfold navigation.closeMobileMenu. by case_match.
  - intros u w' H. unfold navigation.navbarScroll_body. by case_match.
  - intros w' el H. unfold animations.reveal. destruct el.
    by repeat case_match.
Qed.

Lemma one_message_run pb es w : one_message w -> one_message (run pb es w).
Proof.
  revert w. induction es as [|e es IH]; intros w H; simpl; [done|].
  by apply IH, one_message_step.
Qed.

End OneMessage.

(** X14.  On a page whose nodes have distinct handles and which shows at
    most one message node, every event keeps it so: there is never more
    than one element of class [form-message] in the document.  Right after
    [showMessage], with the form in the document, there is exactly one. *)
Theorem at_most_one_message (progressBar : elem) (es : list event) (w : World) :
  one_message w ->
  let w' := run progressBar es w in
  one_message w'
  /\ (forall m t kids,
        Dom.children_of (contactForm (formDom w'))
          (forms.without_existing (body (formDom w'))) = Some kids ->
        count_class "form-message" (body (formDom (forms.showMessage m t w'))) = 1).
Proof.
  intros H w'. assert (H' : one_message w') by (by apply one_message_run).
  split; [exact H'|].
  intros m t kids Hform.
  destruct (one_message_showMessage m t w' H') as [_ Hle].
  assert (Hge : 1 <= count_class "form-message"
                       (body (formDom (forms.showMessage m t w')))).
  { cbn [forms.showMessage setTimeout with_sched with_form formDom body].
    pose proof (children_prepend (contactForm (formDom w'))
                  (Node (next_elem (formDom w')) (forms.message_className t) m [])
                  (forms.without_existing (body (formDom w')))) as Hc.
    rewrite Hform in Hc. simpl in Hc.
    apply (children_count "form-message") in Hc.
    cbn [count_class] in Hc. rewrite count_message_node in Hc. lia. }
  lia.
Qed.

Lemma at_most_one_message_page :
  one_message Sample.page
  /\ let w' := run 9 [Submit; Typing Sample.no_subject; Submit; Elapse 5000; Fire 0]
                 Sample.page in
     one_message w'
     /\ (forall m t kids,
           Dom.children_of (contactForm (formDom w'))
             (forms.without_existing (body (formDom w'))) = Some kids ->
           count_class "form-message"
             (body (formDom (forms.showMessage m t w'))) = 1).
Proof.
  assert (H : one_message Sample.page).
  { split; [split|].
    - vm_compute.
      repeat (constructor;
              [rewrite ?not_elem_of_cons; repeat split; try discriminate;
               apply not_elem_of_nil|]).
      constructor.
    - vm_compute. repeat (constructor; [lia|]). constructor.
    - vm_compute. lia. }
  split; [exact H|].
  exact (at_most_one_message 9
           [Submit; Typing Sample.no_subject; Submit; Elapse 5000; Fire 0]
           Sample.page H).
Defined.

Example messages_after_two_failed_submits :
  count_class "form-message"
    (body (formDom (run 9 [Submit; Typing Sample.no_subject; Submit] Sample.page)))
  = 1.
Proof. vm_compute. reflexivity. Qed.

(** ** Hover effects, in-page links, start-up *)

(** X15.  The hover handlers of the project cards and the skill icons write
    the transform (and, for cards, the shadow) of the hovered element and
    nothing else: its opacity and width, the style of every other element
    and the UI state are as before, so hovering never hides an element the
    scan has revealed.  Leaving a card after entering it ends with the
    identity transform and no shadow. *)
Theorem hover_is_local (this : elem) (w : World) :
  (forall h, h ∈ hover_handlers ->
     opacity (style_of (h this w) this) = opacity (style_of w this)
     /\ width (style_of (h this w) this) = width (style_of w this)
     /\ (forall e, e <> this -> style_of (h this w) e = style_of w e)
     /\ state (h this w) = state w
     /\ (revealed w -> revealed (h this w)))
  /\ transform
       (style_of (projects.handleCardLeave this (projects.handleCardHover this w))
          this) = "translateY(0) scale(1)"
  /\ boxShadow
       (style_of (projects.handleCardLeave this (projects.handleCardHover this w))
          this) = ""
  /\ transform
       (style_of (skills.handleIconLeave this (skills.handleIconHover this w))
          this) = "translateY(0) scale(1)".
Proof.
  split.
  - intros h Hh. unfold hover_handlers in Hh.
    repeat (apply elem_of_cons in Hh as [->|Hh]);
      [| | | |by apply elem_of_nil in Hh].
    all: unfold projects.handleCardHover, projects.handleCardLeave,
           skills.handleIconHover, skills.handleIconLeave.
    all: (split; [by rewrite style_of_update_style|]).
    all: (split; [by rewrite style_of_update_style|]).
    all: (split; [intros e He; by apply style_of_update_style_ne|]).
    all: (split; [reflexivity|]).
    all: by apply revealed_update_style.
  - unfold projects.handleCardLeave, skills.handleIconLeave.
    rewrite !style_of_update_style. done.
Qed.

(** X16.  A click on an in-page link whose target exists asks for a scroll
    to 80px above the target and leaves the menu closed (and mirrored, if it
    was); a link that does not start with a hash, or whose target is not
    found, changes nothing. *)
Theorem handleSmoothScroll_cases (href : string) (target : option Z) (w : World) :
  (navigation.startsWith_hash href = false \/ target = None ->
   navigation.handleSmoothScroll href target w = w)
  /\ (forall offsetTop,
        navigation.startsWith_hash href = true -> target = Some offsetTop ->
        let w' := navigation.handleSmoothScroll href target w in
        scrollTo_top w' = Some (offsetTop - 80)%Z
        /\ isMenuOpen (state w') = false
        /\ (menu_mirrors w -> menu_mirrors w')).
Proof.
  split.
  - unfold navigation.handleSmoothScroll. intros [-> | ->]; [done|].
    by destruct (navigation.startsWith_hash href).
  - intros offsetTop Hh -> w'. subst w'.
    unfold navigation.handleSmoothScroll. rewrite Hh.
    split; [|split].
    + unfold navigation.closeMobileMenu. by case_match.
    + unfold navigation.closeMobileMenu.
      cbn [utils.smoothScrollTo with_scrollTo state].
      by destruct (isMenuOpen (state w)) eqn:Ho.
    + intros Hm. apply menu_mirrors_close. exact Hm.
Qed.

(** X17.  Start-up: [init.all] appends the progress bar, a new
    [div.scroll-progress], at the end of the body and returns its handle;
    the first scan reveals exactly the marked elements that are already
    above 80% of the window height, with no scroll needed; the theme is
    applied and stored; and the two start-up lines are logged. *)
Theorem init_all_start (w : World) :
  animatedElements (state w) = ∅ ->
  inThrottle AnimateOnScroll w = false ->
  let progressBar := (init.all w).1 in
  let w' := (init.all w).2 in
  progressBar = next_elem (formDom w)
  /\ body (formDom w')
     = body (formDom w) ++ [Node progressBar "scroll-progress" "" []]
  /\ (forall element,
        element ∈ animatedElements (state w')
        <-> exists top, (element, top) ∈ fadeIn (layout w)
                        /\ above_threshold (layout w) top = true)
  /\ revealed w'
  /\ theme_agrees w'
  /\ root_className (themeDom w') <> ""
  /\ console w'
     = console w ++ ["Page view tracked";
                     "Portfolio website initialized successfully!"].
Proof.
  intros Hload Hdown pb w'. subst pb w'.
  unfold init.all.
  cbn [animations.initScrollProgress fst snd].
  set (w1 := with_form _ w).
  assert (Hdown1 : inThrottle AnimateOnScroll w1 = false) by exact Hdown.
  unfold animations.animateOnScroll.
  rewrite (throttle_runs _ _ _ _ _ Hdown1).
  split; [reflexivity|]. split.
  { cbn [theme.init theme.setTheme with_console with_theme formDom setTimeout
         set_inThrottle with_sched].
    unfold animations.scan. rewrite (fold_left_frame formDom); [done|].
    intros w2 []. unfold animations.reveal. by repeat case_match. }
  split.
  { intros element.
    cbn [theme.init theme.setTheme with_console with_theme state setTimeout
         set_inThrottle with_sched].
    unfold animations.scan. split.
    - intros Hin. apply fold_only_above in Hin as [Hin|Hin]; [|exact Hin].
      exfalso. change (animatedElements (state w1)) with (animatedElements (state w)) in Hin.
      rewrite Hload in Hin. by apply not_elem_of_empty in Hin.
    - intros (top & Hin & Hab). by apply (fold_reveals _ _ _ top). }
  split.
  { apply (revealed_view (animations.scan () w1)); [reflexivity|].
    unfold animations.scan. apply revealed_fold.
    intros e He. change (animatedElements (state w1)) with (animatedElements (state w)) in He.
    rewrite Hload in He. by apply not_elem_of_empty in He. }
  split; [apply theme_agrees_setTheme|].
  split; [apply savedTheme_nonempty|].
  cbn [theme.init theme.setTheme with_console with_theme console setTimeout
       set_inThrottle with_sched].
  unfold animations.scan. rewrite (fold_left_frame console); [done|].
  intros w2 []. unfold animations.reveal. by repeat case_match.
Qed.

Lemma init_all_start_page :
  animatedElements (state Sample.page) = ∅
  /\ inThrottle AnimateOnScroll Sample.page = false
  /\ let progressBar := (init.all Sample.page).1 in
     let w' := (init.all Sample.page).2 in
     progressBar = next_elem (formDom Sample.page)
     /\ body (formDom w')
        = body (formDom Sample.page) ++ [Node progressBar "scroll-progress" "" []]
     /\ (forall element,
           element ∈ animatedElements (state w')
           <-> exists top, (element, top) ∈ fadeIn (layout Sample.page)
                           /\ above_threshold (layout Sample.page) top = true)
     /\ revealed w'
     /\ theme_agrees w'
     /\ root_className (themeDom w') <> ""
     /\ console w'
        = console Sample.page ++ ["Page view tracked";
                                  "Portfolio website initialized successfully!"].
Proof.
  split; [reflexivity|]. split; [reflexivity|].
  apply (init_all_start Sample.page); reflexivity.
Defined.

(** ** Lazy loading *)

Section LazyFacts.
Import performance.








End LazyFacts.



(** Only the image with a deferred source is observed; once loaded it has
    its source and is not observed any more.  A batch that reports the same
    image as intersecting twice overwrites the source it has just set. *)
Example lazy_loading_sample :
  performance.observing (performance.initLazyLoading sample_images) = {[20]}
  /\ performance.images
       (performance.callback [(20, true)]
          (performance.initLazyLoading sample_images)) !! 20
     = Some {| performance.src := Some "photo.jpg";
               performance.data_src := None |}
  /\ performance.observing
       (performance.callback [(20, true)]
          (performance.initLazyLoading sample_images)) = ∅
  /\ performance.images
       (performance.callback [(20, true); (20, true)]
          (performance.initLazyLoading sample_images)) !! 20
     = Some {| performance.src := Some "undefined";
               performance.data_src := None |}.
Proof.
  split; [vm_compute; reflexivity|].
  split; [vm_compute; reflexivity|].
  split; vm_compute; reflexivity.
Qed.
